(** * The system-property store of bionic: [libc/system_properties/system_properties.cpp]

    A shallow embedding of the [SystemProperties] façade: the seqlock reader
    ([ReadMutablePropertyValue], [Read], [ReadCallback]), the writer
    ([Update], [Add]) and the futex wait ([Wait]).

    - 32-bit unsigned words are [Z] with the wrap-around written out ([wrap32]).
    - [char] buffers are [list byte]; property names are [string].
    - The memory-mapped areas are shared with a concurrent writer, so the
      reader runs against a schedule [nat -> memory]: the contents of the
      mapping at each of the reader's successive accesses.
    - Dereferencing a null area, copying past the end of a buffer and
      following a [prop_info*] that points at no record are undefined in C++;
      they are the [Fault] outcomes here.  A loop that has not left after the
      given number of rounds is [Spin]. *)

From Stdlib Require Import ZArith Lia Bool.
From Stdlib Require Import Strings.Byte.
From Stdlib Require Zbitwise.
From stdpp Require Import base numbers list strings functions.

Local Open Scope Z_scope.

(** ** Words, constants and the serial encoding *)

Definition wrap32 (z : Z) : Z := z mod 2 ^ 32.

(** Modelled from the spec: [PROP_VALUE_MAX] comes from
    [sys/system_properties.h], which is not among the sources; the inline
    value is "the fixed 92-byte inline value". *)
Definition PROP_VALUE_MAX : Z := 92.

(** Modelled from the spec: [PROP_NAME_MAX], likewise; "the fixed 32-byte name". *)
Definition PROP_NAME_MAX : Z := 32.

(** [ETIMEDOUT] of [errno.h] on Linux. *)
Definition ETIMEDOUT : Z := 110.

(** [#define SERIAL_DIRTY(serial) ((serial)&1)] *)
Definition SERIAL_DIRTY (serial : Z) : Z := Z.land serial 1.

(** [#define SERIAL_VALUE_LEN(serial) ((serial) >> 24)] *)
Definition SERIAL_VALUE_LEN (serial : Z) : Z := Z.shiftr serial 24.

(** An [int] used where C++ wants a [bool]: everything but 0 is [true]. *)
Definition bool_of_int (z : Z) : bool := negb (z =? 0).

(** ** Outcomes of a call *)

Inductive fault : Type :=
| NullDeref      (* a null [prop_area*] was followed *)
| OutOfBounds    (* a copy ran past the end of a buffer *)
| WildPointer.   (* a [prop_info*] that points at no record *)

Inductive outcome (A : Type) : Type :=
| Ret (a : A)
| Fault (f : fault)
| Spin.

Arguments Ret {A} a.
Arguments Fault {A} f.
Arguments Spin {A}.

#[global] Instance outcome_ret : MRet outcome := fun A a => Ret a.
#[global] Instance outcome_bind : MBind outcome := fun A B k o =>
  match o with
  | Ret a => k a
  | Fault f => Fault f
  | Spin => Spin
  end.

(** ** C strings and buffers *)

Definition NUL : byte := x00.

(** [strlen]: the number of bytes before the first NUL.  A list without a NUL
    stands for a string whose terminator follows its last byte. *)
Fixpoint strlen (s : list byte) : nat :=
  match s with
  | [] => O
  | c :: s' => if Byte.eqb c NUL then O else S (strlen s')
  end.

(** [memcpy(dst, src, n)]: the first [n] bytes of [dst] become those of [src]. *)
Definition memcpy (dst src : list byte) (n : Z) : outcome (list byte) :=
  if (n <=? Z.of_nat (length src)) && (n <=? Z.of_nat (length dst))
  then Ret (take (Z.to_nat n) src ++ drop (Z.to_nat n) dst)
  else Fault OutOfBounds.

(** [strlcpy(dst, src, size)]: at most [size - 1] bytes of the string [src],
    then a NUL; nothing at all when [size] is 0.  The call returns
    [strlen(src)], which the store only uses in [Read]. *)
Definition strlcpy (dst src : list byte) (size : Z) : outcome (list byte) :=
  if size =? 0 then Ret dst
  else if size <=? Z.of_nat (length dst) then
    let k := Nat.min (strlen src) (Z.to_nat (size - 1)) in
    Ret (take k src ++ NUL :: drop (S k) dst)
  else Fault OutOfBounds.

(** [strncmp(s1, s2, n) == 0] on NUL-terminated strings. *)
Fixpoint strncmp_is_0 (s1 s2 : string) (n : nat) {struct n} : bool :=
  match n with
  | O => true
  | S n' =>
    match s1, s2 with
    | EmptyString, EmptyString => true
    | String a s1', String b s2' => Ascii.eqb a b && strncmp_is_0 s1' s2' n'
    | _, _ => false
    end
  end.

(** [strcmp(s1, s2) == 0] *)
Definition strcmp_is_0 (s1 s2 : string) : bool := String.eqb s1 s2.

(** [static bool is_read_only(const char* name)] *)
Definition is_read_only (name : string) : bool := strncmp_is_0 name "ro." 3.

(** ** Records, areas and the mapped memory *)

Module prop_info.
(** Modelled from the spec: [prop_info.h] is not among the sources.  "A
    fixed-size struct containing the atomic 32-bit serial, the fixed 92-byte
    inline value, the fixed 32-byte name, and (when applicable) a 32-bit
    long-value offset"; [is_long()] says whether the long value is there. *)
Record t : Type := mk {
  name : string;
  serial : Z;
  value : list byte;
  long_value : option (list byte)
}.

Definition is_long (pi : t) : bool :=
  match long_value pi with Some _ => true | None => false end.

Definition set_serial (s : Z) (pi : t) : t :=
  mk (name pi) s (value pi) (long_value pi).

Definition set_value (v : list byte) (pi : t) : t :=
  mk (name pi) (serial pi) v (long_value pi).
End prop_info.

Module prop_area.
(** Modelled from the spec: [prop_area.h] is not among the sources.  The
    header holds "a 32-bit area-serial counter" and "a dirty-backup buffer
    the size of one value"; the records of the slab are [props]. *)
Record t : Type := mk {
  serial : Z;
  dirty_backup_area : list byte;
  props : list prop_info.t
}.

Definition set_serial (s : Z) (pa : t) : t :=
  mk s (dirty_backup_area pa) (props pa).

Definition set_dirty_backup_area (b : list byte) (pa : t) : t :=
  mk (serial pa) b (props pa).

Definition set_props (ps : list prop_info.t) (pa : t) : t :=
  mk (serial pa) (dirty_backup_area pa) ps.
End prop_area.

(** A non-null [prop_area*]: the number of the area it points to. *)
Abbreviation area_ptr := nat (only parsing).

(** A [prop_info*]: an area and a slot of its slab. *)
Record prop_info_ptr : Type := mk_ptr { pi_area : area_ptr; pi_slot : nat }.

(** The mapped files: every area a [Contexts] can hand out. *)
Abbreviation memory := (nat -> prop_area.t) (only parsing).

(** Modelled from the spec: the [Contexts] classes are not among the sources.
    Of their "common capability set" the store calls [GetSerialPropArea()] and
    [GetPropAreaForName(name)]; [None] is the null pointer. *)
Record Contexts : Type := mk_contexts {
  GetSerialPropArea : option area_ptr;
  GetPropAreaForName : string -> option area_ptr
}.

(** The process-local part of [class SystemProperties]. *)
Record SystemProperties : Type := mk_store {
  initialized_ : bool;
  contexts_ : Contexts
}.

Definition load_info (m : memory) (pi : prop_info_ptr) : outcome prop_info.t :=
  match prop_area.props (m (pi_area pi)) !! pi_slot pi with
  | Some info => Ret info
  | None => Fault WildPointer
  end.

Definition store_info (m : memory) (pi : prop_info_ptr) (info : prop_info.t) : memory :=
  <[pi_area pi := prop_area.set_props
                    (<[pi_slot pi := info]> (prop_area.props (m (pi_area pi))))
                    (m (pi_area pi))]> m.

(** [atomic_load_explicit(&pi->serial, ...)] *)
Definition load_serial (m : memory) (pi : prop_info_ptr) : outcome Z :=
  info ← load_info m pi; Ret (prop_info.serial info).

(** [atomic_store_explicit(&pi->serial, s, ...)] *)
Definition store_serial (m : memory) (pi : prop_info_ptr) (s : Z) : outcome memory :=
  info ← load_info m pi; Ret (store_info m pi (prop_info.set_serial s info)).

(** ** The reader *)

(** [uint32_t SystemProperties::AreaSerial()] *)
Definition AreaSerial (sp : SystemProperties) (m : memory) : Z :=
  if negb (initialized_ sp) then wrap32 (-1)
  else match GetSerialPropArea (contexts_ sp) with
       | None => wrap32 (-1)
       | Some pa => prop_area.serial (m pa)
       end.

Section Reader.
Variable sp : SystemProperties.
(** [env t] is the mapping as the reader finds it at its access number [t];
    a writer may have run between any two of them. *)
Variable env : nat -> memory.
Variable pi : prop_info_ptr.

(** The body of the [if] in the loop: one [memcpy] into [value]. *)
Definition copy_value (m : memory) (serial : Z) (value : list byte)
  : outcome (list byte) :=
  let len := SERIAL_VALUE_LEN serial in
  info ← load_info m pi;
  if bool_of_int (SERIAL_DIRTY serial) then
    match GetPropAreaForName (contexts_ sp) (prop_info.name info) with
    | None => Fault NullDeref
    | Some pa => memcpy value (prop_area.dirty_backup_area (m pa)) (len + 1)
    end
  else memcpy value (prop_info.value info) (len + 1).

(** The [for (;;)] loop.  Round by round: the copy reads the mapping at
    access [t], the reload of [pi->serial] at access [t + 1]. *)
Fixpoint ReadMutablePropertyValue_loop (rounds : nat) (t : nat)
    (new_serial : Z) (value : list byte) : outcome (Z * list byte) :=
  match rounds with
  | O => Spin
  | S rounds' =>
    let serial := new_serial in
    value ← copy_value (env t) serial value;
    new_serial ← load_serial (env (S t)) pi;
    if serial =? new_serial then Ret (serial, value)
    else ReadMutablePropertyValue_loop rounds' (S (S t)) new_serial value
  end.

(** [uint32_t SystemProperties::ReadMutablePropertyValue(const prop_info* pi, char* value)]:
    the serial returned and the contents of [value] afterwards. *)
Definition ReadMutablePropertyValue (rounds : nat) (value : list byte)
  : outcome (Z * list byte) :=
  new_serial ← load_serial (env O) pi;
  ReadMutablePropertyValue_loop rounds 1 new_serial value.

(** [int SystemProperties::Read(const prop_info* pi, char* name, char* value)]:
    the result and the two buffers afterwards; [name = None] is the null
    pointer.  The name of a record is written once, before the record is
    published, so it is read from the first access.  The two log lines are
    not modelled. *)
Definition Read (rounds : nat) (name : option (list byte)) (value : list byte)
  : outcome (Z * option (list byte) * list byte) :=
  '(serial, value) ← ReadMutablePropertyValue rounds value;
  name ← match name with
         | Some buf =>
           info ← load_info (env O) pi;
           buf ← strlcpy buf (String.list_byte_of_string (prop_info.name info)) PROP_NAME_MAX;
           Ret (Some buf)
         | None => Ret None
         end;
  Ret (SERIAL_VALUE_LEN serial, name, value).
End Reader.

(** ** ReadCallback *)

(** What [callback2] is called with ([cookie] is handed through untouched). *)
Record callback_args : Type := mk_call {
  cb_name : string;
  cb_value : list byte;
  cb_serial : Z
}.

(** A string literal in memory. *)
Definition literal (s : string) : list byte := String.list_byte_of_string s ++ [NUL].

(** [uid_t] to [int]. *)
Definition int_of_uint32 (z : Z) : Z := (z + 2 ^ 31) mod 2 ^ 32 - 2 ^ 31.

(** The lambda [callback] of [ReadCallback]; [getuid] is what [getuid()] returns. *)
Definition callback (getuid : Z) (name : string) (value : list byte) (serial : Z)
  : callback_args :=
  let uid := int_of_uint32 getuid in
  if ((10000 <=? uid) && (uid <=? 19999)) || ((90000 <=? uid) && (uid <=? 99999)) then
    if strcmp_is_0 name "init.svc.adbd" then mk_call name (literal "stopped") serial
    else if strcmp_is_0 name "sys.usb.configfs" then mk_call name (literal "0") serial
    else if strcmp_is_0 name "persist.sys.usb.config"
            || strcmp_is_0 name "sys.usb.config"
            || strcmp_is_0 name "sys.usb.state"
    then mk_call name (literal "none") serial
    else mk_call name value serial
  else mk_call name value serial.

(** [void SystemProperties::ReadCallback(const prop_info* pi, callback2, cookie)]:
    the one call of [callback2] it makes.  [value_buf] is the stack buffer
    [char value_buf[PROP_VALUE_MAX]] as the call finds it; the [match] on the
    long value is [pi->is_long()] with [pi->long_value()] in its branch. *)
Definition ReadCallback (sp : SystemProperties) (env : nat -> memory) (rounds : nat)
    (getuid : Z) (pi : prop_info_ptr) (value_buf : list byte) : outcome callback_args :=
  info ← load_info (env O) pi;
  if is_read_only (prop_info.name info) then
    let serial := prop_info.serial info in
    match prop_info.long_value info with
    | Some long => Ret (callback getuid (prop_info.name info) long serial)
    | None => Ret (callback getuid (prop_info.name info) (prop_info.value info) serial)
    end
  else
    '(serial, value_buf) ← ReadMutablePropertyValue sp env pi rounds value_buf;
    Ret (callback getuid (prop_info.name info) value_buf serial).

(** ** The writer *)

(** [int SystemProperties::Update(prop_info* pi, const char* value, unsigned int len)]:
    the result and the mapping afterwards.  The fences and the two
    [__futex_wake] calls leave the mapping as it is; the log line is not
    modelled. *)
Definition Update (sp : SystemProperties) (m : memory) (pi : prop_info_ptr)
    (value : list byte) (len : Z) : outcome (Z * memory) :=
  if PROP_VALUE_MAX <=? len then Ret (-1, m)
  else if negb (initialized_ sp) then Ret (-1, m)
  else match GetSerialPropArea (contexts_ sp) with
  | None => Ret (-1, m)
  | Some serial_pa =>
    info ← load_info m pi;
    match GetPropAreaForName (contexts_ sp) (prop_info.name info) with
    | None => Ret (-1, m)
    | Some pa =>
      let serial := prop_info.serial info in
      let old_len := SERIAL_VALUE_LEN serial in
      backup ← memcpy (prop_area.dirty_backup_area (m pa)) (prop_info.value info) (old_len + 1);
      let m := <[pa := prop_area.set_dirty_backup_area backup (m pa)]> m in
      let serial := Z.lor serial 1 in
      m ← store_serial m pi serial;
      info ← load_info m pi;
      v ← strlcpy (prop_info.value info) value (len + 1);
      let m := store_info m pi (prop_info.set_value v info) in
      m ← store_serial m pi
            (Z.lor (wrap32 (Z.shiftl len 24)) (Z.land (wrap32 (serial + 1)) 16777215));
      let m := <[serial_pa := prop_area.set_serial
                                (wrap32 (prop_area.serial (m serial_pa) + 1))
                                (m serial_pa)]> m in
      Ret (0, m)
    end
  end.

(** The mapping between the two stores of [pi->serial] in [Update]: what a
    reader finds that runs while the writer is there.  [pa] is the area the
    router gave for the name. *)
Definition Update_window (m : memory) (pi : prop_info_ptr) (pa : area_ptr)
    (value : list byte) (len : Z) : outcome memory :=
  info ← load_info m pi;
  let serial := prop_info.serial info in
  let old_len := SERIAL_VALUE_LEN serial in
  backup ← memcpy (prop_area.dirty_backup_area (m pa)) (prop_info.value info) (old_len + 1);
  let m := <[pa := prop_area.set_dirty_backup_area backup (m pa)]> m in
  let serial := Z.lor serial 1 in
  m ← store_serial m pi serial;
  info ← load_info m pi;
  v ← strlcpy (prop_info.value info) value (len + 1);
  Ret (store_info m pi (prop_info.set_value v info)).

Section Add.
(** Modelled from the spec: [prop_area::add] is not among the sources.  It
    "creates a PropInfo ..., splices a new leaf into the radix index" and
    "fails when the area cannot accommodate the record within its fixed
    size": it works on the records of the area and answers [true] or
    [false]; the header with the area-serial is none of its business. *)
Variable pa_add :
  list prop_info.t -> string -> Z -> list byte -> Z -> bool * list prop_info.t.

(** [int SystemProperties::Add(const char* name, unsigned int namelen,
                               const char* value, unsigned int valuelen)] *)
Definition Add (sp : SystemProperties) (m : memory) (name : string) (namelen : Z)
    (value : list byte) (valuelen : Z) : Z * memory :=
  if (PROP_VALUE_MAX <=? valuelen) && negb (is_read_only name) then (-1, m)
  else if namelen <? 1 then (-1, m)
  else if negb (initialized_ sp) then (-1, m)
  else match GetSerialPropArea (contexts_ sp) with
  | None => (-1, m)
  | Some serial_pa =>
    match GetPropAreaForName (contexts_ sp) name with
    | None => (-1, m)
    | Some pa =>
      let '(ret, ps) := pa_add (prop_area.props (m pa)) name namelen value valuelen in
      let m := <[pa := prop_area.set_props ps (m pa)]> m in
      if negb ret then (-1, m)
      else
        let m := <[serial_pa := prop_area.set_serial
                                  (wrap32 (prop_area.serial (m serial_pa) + 1))
                                  (m serial_pa)]> m in
        (0, m)
    end
  end.
End Add.

(** ** Waiting *)

(** The word [serial_ptr] points at: the area-serial of an area or the serial
    of a record. *)
Inductive serial_ptr : Type :=
| area_serial_of (pa : area_ptr)
| info_serial_of (pi : prop_info_ptr).

Definition load_const_atomic (m : memory) (p : serial_ptr) : outcome Z :=
  match p with
  | area_serial_of pa => Ret (prop_area.serial (m pa))
  | info_serial_of pi => load_serial m pi
  end.

Section Wait.
Variable sp : SystemProperties.
(** [env t]: the mapping at the reload of round [t]; [futex t]: what the
    [__futex_wait] of round [t] returns. *)
Variable env : nat -> memory.
Variable futex : nat -> Z.

(** The [do ... while] loop: the result and the word at [new_serial_ptr]. *)
Fixpoint Wait_loop (rounds : nat) (t : nat) (p : serial_ptr) (old_serial : Z)
    (at_new_serial_ptr : Z) : outcome (bool * Z) :=
  match rounds with
  | O => Spin
  | S rounds' =>
    let rc := futex t in
    if negb (rc =? 0) && (rc =? - ETIMEDOUT) then Ret (false, at_new_serial_ptr)
    else
      new_serial ← load_const_atomic (env t) p;
      if new_serial =? old_serial
      then Wait_loop rounds' (S t) p old_serial at_new_serial_ptr
      else Ret (true, new_serial)
  end.

(** [bool SystemProperties::Wait(const prop_info* pi, uint32_t old_serial,
                                 uint32_t* new_serial_ptr, const timespec* relative_timeout)]:
    the result and the word at [new_serial_ptr] afterwards;
    [at_new_serial_ptr] is that word before the call.  [return -1] in a
    function that returns [bool] returns [true]. *)
Definition Wait (rounds : nat) (pi : option prop_info_ptr) (old_serial : Z)
    (at_new_serial_ptr : Z) : outcome (bool * Z) :=
  match pi with
  | None =>
    if negb (initialized_ sp) then Ret (bool_of_int (-1), at_new_serial_ptr)
    else match GetSerialPropArea (contexts_ sp) with
         | None => Ret (bool_of_int (-1), at_new_serial_ptr)
         | Some serial_pa =>
           Wait_loop rounds O (area_serial_of serial_pa) old_serial at_new_serial_ptr
         end
  | Some pi =>
    Wait_loop rounds O (info_serial_of pi) old_serial at_new_serial_ptr
  end.

(** [uint32_t SystemProperties::WaitAny(uint32_t old_serial)]; [junk] is the
    uninitialised local [new_serial]. *)
Definition WaitAny (rounds : nat) (old_serial : Z) (junk : Z) : outcome Z :=
  '(_, new_serial) ← Wait rounds None old_serial junk;
  Ret new_serial.
End Wait.


(** ** Auxiliary definitions for the statements *)

(** The word [Update] stores last: [(len << 24) | ((serial + 1) & 0xffffff)]
    for the dirtied [serial]. *)
Definition final_serial (len serial : Z) : Z :=
  Z.lor (wrap32 (Z.shiftl len 24)) (Z.land (wrap32 (Z.lor serial 1 + 1)) 16777215).


(** The same word in the words of the specification:
    [(new_len << 24) | ((serial_before_dirty + 1) & 0xFFFFFF)]. *)
Definition spec_final_serial (new_len serial_before_dirty : Z) : Z :=
  Z.lor (Z.shiftl new_len 24) (Z.land (serial_before_dirty + 1) 16777215).

(** "The name begins with the prefix [ro.]". *)
Definition begins_with_ro (name : string) : Prop :=
  exists rest : string, name = ("ro." ++ rest)%string.

(** The sizes the headers give the buffers: a record whose inline value has
    [PROP_VALUE_MAX] bytes and whose serial is a 32-bit word with a length
    that fits, and an area whose dirty-backup buffer has [PROP_VALUE_MAX] bytes. *)
Definition wf_info (info : prop_info.t) : Prop :=
  Z.of_nat (length (prop_info.value info)) = PROP_VALUE_MAX /\
  0 <= prop_info.serial info < 2 ^ 32 /\
  SERIAL_VALUE_LEN (prop_info.serial info) < PROP_VALUE_MAX.

Definition wf_area (pa : prop_area.t) : Prop :=
  Z.of_nat (length (prop_area.dirty_backup_area pa)) = PROP_VALUE_MAX.

(** The four ways [Update] gives up. *)
Definition Update_refuses (sp : SystemProperties) (name : string) (len : Z) : Prop :=
  PROP_VALUE_MAX <= len \/ initialized_ sp = false \/
  GetSerialPropArea (contexts_ sp) = None \/
  GetPropAreaForName (contexts_ sp) name = None.

(** ** A small store to run the code on *)

Definition blank : list byte := replicate 92 NUL.

Definition bytes (s : string) : list byte := String.list_byte_of_string s.

(** One area for every name, which is the serial area as well. *)
Definition demo_contexts : Contexts := mk_contexts (Some O) (fun _ => Some O).

Definition demo_store : SystemProperties := mk_store true demo_contexts.

(** A store on which [Init] has not run. *)
Definition fresh_store : SystemProperties :=
  mk_store false (mk_contexts None (fun _ => None)).

(** [a.b] is empty; [ro.build.id] is [ABC]. *)
Definition demo_memory : memory := fun _ =>
  prop_area.mk 0 blank
    [ prop_info.mk "a.b" 0 blank None;
      prop_info.mk "ro.build.id" 50331648 (bytes "ABC" ++ drop 3 blank) None ].

Definition demo_pi : prop_info_ptr := mk_ptr 0 0.
Definition demo_ro_pi : prop_info_ptr := mk_ptr 0 1.

(** The mapping a call leaves behind ([demo_memory] when it does not return). *)
Definition memory_after {A : Type} (o : outcome (A * memory)) : memory :=
  match o with
  | Ret (_, m) => m
  | _ => demo_memory
  end.

(** Where the bytes come from, in the words of the specification: "from the
    area's dirty-backup buffer" when the low bit of the serial is 1, "from the
    PropInfo's inline value" when it is 0. *)
Definition spec_byte_source (sp : SystemProperties) (m : memory)
    (info : prop_info.t) (s : Z) : option (list byte) :=
  if Z.testbit s 0
  then match GetPropAreaForName (contexts_ sp) (prop_info.name info) with
       | Some pa => Some (prop_area.dirty_backup_area (m pa))
       | None => None
       end
  else Some (prop_info.value info).

(** [a.b] is [A]. *)
Definition A_memory : memory := fun _ =>
  prop_area.mk 7 blank
    [ prop_info.mk "a.b" 16777216 (bytes "A" ++ drop 1 blank) None ].

(** [a.b] in the middle of the [Update] from [A] to [BB]: the serial is
    dirty, the backup holds [A], the inline value is already [BB]. *)
Definition dirty_memory : memory :=
  match Update_window A_memory (mk_ptr 0 0) O (bytes "BB") 2 with
  | Ret m => m
  | _ => A_memory
  end.

(** A store whose router knows no area for any name. *)
Definition denied_store : SystemProperties :=
  mk_store true (mk_contexts (Some O) (fun _ => None)).

(** The buffer a caller hands to [Read]: [PROP_VALUE_MAX] bytes of [*]. *)
Definition caller_buffer : list byte := replicate 92 "*"%byte.

(** ** Sequences of writer calls *)

Inductive store_op : Type :=
| op_Add (name : string) (namelen : Z) (value : list byte) (valuelen : Z)
| op_Update (pi : prop_info_ptr) (value : list byte) (len : Z).

Section Run.
Variable pa_add :
  list prop_info.t -> string -> Z -> list byte -> Z -> bool * list prop_info.t.
Variable sp : SystemProperties.

Definition run_op (m : memory) (op : store_op) : outcome (Z * memory) :=
  match op with
  | op_Add name namelen value valuelen =>
    Ret (Add pa_add sp m name namelen value valuelen)
  | op_Update pi value len => Update sp m pi value len
  end.

(** The results of the calls, in order, and the mapping they leave. *)
Fixpoint run_ops (m : memory) (ops : list store_op) : outcome (list Z * memory) :=
  match ops with
  | [] => Ret ([], m)
  | op :: ops' =>
    '(r, m) ← run_op m op;
    '(rs, m) ← run_ops m ops';
    Ret (r :: rs, m)
  end.
End Run.

(** How many of the calls returned 0. *)
Fixpoint successes (rs : list Z) : Z :=
  match rs with
  | [] => 0
  | r :: rs' => (if r =? 0 then 1 else 0) + successes rs'
  end.

(** Modelled from the spec: an [add] to run [Add] with.  It "creates a
    PropInfo ..., initializes its serial to (len<<24), writes value and
    terminator" and "fails when the area cannot accommodate the record": here
    an area has room for four records, and a value that does not fit the
    inline buffer is kept as the long value. *)
Definition slab_add (ps : list prop_info.t) (name : string) (namelen : Z)
    (value : list byte) (valuelen : Z) : bool * list prop_info.t :=
  if (length ps <? 4)%nat then
    let v := take (Z.to_nat valuelen) value in
    if valuelen <? PROP_VALUE_MAX
    then (true, ps ++ [prop_info.mk name (wrap32 (Z.shiftl valuelen 24))
                         (v ++ drop (length v) blank) None])
    else (true, ps ++ [prop_info.mk name 0 blank (Some (v ++ [NUL]))])
  else (false, ps).

(** The serial area one step before its counter wraps. *)
Definition wrapping_memory : memory := fun _ =>
  prop_area.mk 4294967295 blank [ prop_info.mk "a.b" 0 blank None ].

(** Three calls in a row: an [Add], an [Update], and an [Update] with a value
    that is too long. *)
Definition demo_ops : list store_op :=
  [ op_Add "x" 1 (bytes "1") 1;
    op_Update demo_pi (bytes "hello") 5;
    op_Update demo_pi (bytes "hello") 92 ].

(** An initialised store whose [Contexts] has no serial area. *)
Definition no_serial_store : SystemProperties :=
  mk_store true (mk_contexts None (fun _ => Some O)).

(** "The calling process's uid is in [10000, 19999] or [90000, 99999]". *)
Definition uid_in_range (uid : Z) : Prop :=
  10000 <= uid <= 19999 \/ 90000 <= uid <= 99999.

(** The three names that read as [none]. *)
Definition usb_names : list string :=
  [ "persist.sys.usb.config"; "sys.usb.config"; "sys.usb.state" ]%string.

(** [init.svc.adbd] is [running], and [ro.build.id] is [ABC]. *)
Definition adbd_memory : memory := fun _ =>
  prop_area.mk 0 blank
    [ prop_info.mk "init.svc.adbd" 117440512 (bytes "running" ++ drop 7 blank) None;
      prop_info.mk "ro.build.id" 50331648 (bytes "ABC" ++ drop 3 blank) None ].

(** Case analysis on membership of a name in a list of literals. *)
Ltac name_cases :=
  unfold usb_names in *;
  repeat match goal with
  | H : _ ∈ _ :: _ |- _ => apply elem_of_cons in H as [H|H]
  | H : _ ∈ [] |- _ => apply elem_of_nil in H; contradiction
  | H : _ ∉ _ :: _ |- _ => apply not_elem_of_cons in H as [? H]
  | H : _ \/ _ |- _ => destruct H
  end;
  try reflexivity; try congruence; try contradiction.


(** ** Find and Get *)

Section Find.
(** Modelled from the spec: [prop_area::find] is not among the sources.  It
    returns "the leaf's PropInfo if the stored name matches exactly, else
    null": the slot of the record in the area, or [None]. *)
Variable pa_find : list prop_info.t -> string -> option nat.

(** [const prop_info* SystemProperties::Find(const char* name)]; [None] is the
    null pointer.  The log line is not modelled. *)
Definition Find (sp : SystemProperties) (m : memory) (name : string)
  : option prop_info_ptr :=
  if negb (initialized_ sp) then None
  else match GetPropAreaForName (contexts_ sp) name with
       | None => None
       | Some pa =>
         match pa_find (prop_area.props (m pa)) name with
         | Some slot => Some (mk_ptr pa slot)
         | None => None
         end
       end.

(** [int SystemProperties::Get(const char* name, char* value)]: the result and
    the buffer afterwards.  [Find] walks the mapping at access 0, [Read] has
    the accesses after it. *)
Definition Get (sp : SystemProperties) (env : nat -> memory) (rounds : nat)
    (name : string) (value : list byte) : outcome (Z * list byte) :=
  match Find sp (env O) name with
  | Some pi =>
    '(r, _, value) ← Read sp (fun t => env (S t)) pi rounds None value;
    Ret (r, value)
  | None =>
    match value with
    | [] => Fault OutOfBounds
    | _ :: rest => Ret (0, NUL :: rest)
    end
  end.
End Find.

(** ** Foreach and FindNth *)

(** [struct find_nth] of [FindNth]. *)
Record find_nth : Type := mk_find_nth {
  sought : Z;
  current : Z;
  result : option prop_info_ptr
}.

(** [find_nth::fn]: [if (self->current++ == self->sought) self->result = pi;] *)
Definition find_nth_fn (pi : prop_info_ptr) (self : find_nth) : find_nth :=
  let hit := current self =? sought self in
  let self := mk_find_nth (sought self) (wrap32 (current self + 1)) (result self) in
  if hit then mk_find_nth (sought self) (current self) (Some pi) else self.

Section Foreach.
(** Modelled from the spec: [Contexts::ForEach] is not among the sources.  It
    "iterates every area via the Contexts, for each area enumerating every
    PropInfo exactly once"; [visited] are the records it passes to the
    callback, in its order. *)
Variable visited : list prop_info_ptr.

(** [int SystemProperties::Foreach(void (*propfn)(const prop_info*, void*), void* cookie)]:
    the result and what the callback has made of [cookie]. *)
Definition Foreach {S : Type} (sp : SystemProperties)
    (propfn : prop_info_ptr -> S -> S) (cookie : S) : Z * S :=
  if negb (initialized_ sp) then (-1, cookie)
  else (0, foldl (fun c pi => propfn pi c) cookie visited).

(** [const prop_info* SystemProperties::FindNth(unsigned n)] *)
Definition FindNth (sp : SystemProperties) (n : Z) : option prop_info_ptr :=
  let state := mk_find_nth (wrap32 n) 0 None in
  result (snd (Foreach sp find_nth_fn state)).
End Foreach.

(** ** Init and AreaInit *)

(** The three classes placement-constructed into [contexts_data_]. *)
Inductive contexts_class : Type :=
| ContextsSerialized
| ContextsSplit
| ContextsPreSplit.

(** [class SystemProperties] with the file name it keeps. *)
Record instance : Type := mk_instance {
  this : SystemProperties;
  property_filename_ : string
}.

Section Init.
(** [PROP_FILENAME_MAX] of [sys/system_properties.h], which is not among the
    sources. *)
Variable PROP_FILENAME_MAX : Z.
(** [is_dir]: [stat] says the path is a directory. *)
Variable is_dir : string -> bool.
(** [access("/dev/__properties__/property_info", R_OK) == 0] *)
Variable property_info_readable : bool.
(** Modelled from the spec: [Contexts::Initialize(writable, filename,
    fsetxattr_failed)] of the class just constructed: whether it succeeded,
    the object it leaves, and what it wrote through [fsetxattr_failed]. *)
Variable Initialize : contexts_class -> bool -> string -> bool * Contexts * bool.
(** Modelled from the spec: [Contexts::ResetAccess()]. *)
Variable ResetAccess : Contexts -> Contexts.

(** [bool SystemProperties::Init(const char* filename)].  [errno] is not
    modelled. *)
Definition Init (self : instance) (filename : string) : bool * instance :=
  if initialized_ (this self) then
    (true, mk_instance (mk_store (initialized_ (this self))
                                 (ResetAccess (contexts_ (this self))))
                       (property_filename_ self))
  else if PROP_FILENAME_MAX <=? Z.of_nat (String.length filename) then (false, self)
  else
    let property_filename_ := filename in
    let class :=
      if is_dir property_filename_
      then if property_info_readable then ContextsSerialized else ContextsSplit
      else ContextsPreSplit in
    let '(ok, contexts_, _) := Initialize class false property_filename_ in
    if negb ok
    then (false, mk_instance (mk_store (initialized_ (this self)) contexts_)
                             property_filename_)
    else (true, mk_instance (mk_store true contexts_) property_filename_).

(** [bool SystemProperties::AreaInit(const char* filename, bool* fsetxattr_failed)]:
    the result, the object afterwards and the flag behind
    [fsetxattr_failed] ([at_fsetxattr_failed] before the call). *)
Definition AreaInit (self : instance) (filename : string) (at_fsetxattr_failed : bool)
  : bool * instance * bool :=
  if PROP_FILENAME_MAX <=? Z.of_nat (String.length filename)
  then (false, self, at_fsetxattr_failed)
  else
    let property_filename_ := filename in
    let '(ok, contexts_, failed) := Initialize ContextsSerialized true property_filename_ in
    if negb ok
    then (false, mk_instance (mk_store (initialized_ (this self)) contexts_)
                             property_filename_, failed)
    else (true, mk_instance (mk_store true contexts_) property_filename_, failed).
End Init.

(** ** More of the small store *)

(** Modelled from the spec: a [find] to run [Find] with: the first slot whose
    record has exactly this name. *)
Fixpoint slab_find (ps : list prop_info.t) (name : string) : option nat :=
  match ps with
  | [] => None
  | info :: ps' =>
    if String.eqb (prop_info.name info) name then Some O
    else match slab_find ps' name with
         | Some slot => Some (S slot)
         | None => None
         end
  end.

(** Four records, in the order a [ForEach] finds them. *)
Definition demo_visited : list prop_info_ptr :=
  [ mk_ptr 0 0; mk_ptr 0 1; mk_ptr 1 0; mk_ptr 1 1 ].

(** A file system for [Init]: [/dev/__properties__] is a directory with a
    readable [property_info], and [Initialize] succeeds on it alone. *)
Definition demo_is_dir (path : string) : bool := String.eqb path "/dev/__properties__".

Definition demo_Initialize (class : contexts_class) (writable : bool) (filename : string)
  : bool * Contexts * bool :=
  (String.eqb filename "/dev/__properties__", demo_contexts, false).

Definition blank_instance : instance := mk_instance fresh_store "".

(** A mapping in which every area and every record has the sizes of
    [wf_area] and [wf_info]. *)
Definition wf_memory (m : memory) : Prop :=
  (forall pa, wf_area (m pa)) /\
  (forall pi info, load_info m pi = Ret info -> wf_info info).

(** A reader's view when an [Update] runs under it: the mapping [m] at the
    first load, [mid] at the first copy, [m'] from then on. *)
Definition overtaken (m mid m' : memory) : nat -> memory := fun t =>
  match t with
  | O => m
  | S O => mid
  | _ => m'
  end.

(** The word a [Wait] sleeps on, when it gets as far as the loop: the serial
    of [pi], or for a null [pi] the area-serial of the serial area of an
    initialised store. *)
Definition waited_word (sp : SystemProperties) (pi : option prop_info_ptr)
  : option serial_ptr :=
  match pi with
  | Some pi => Some (info_serial_of pi)
  | None =>
    if initialized_ sp
    then match GetSerialPropArea (contexts_ sp) with
         | Some serial_pa => Some (area_serial_of serial_pa)
         | None => None
         end
    else None
  end.

(** "The stored value and its serial", as [ReadCallback] reads them from the
    mapping.  For a name that begins with [ro.]: the serial of the record at
    the first access and its long value when there is one, its inline value
    otherwise.  For any other name: a serial that the loads at two accesses
    [2k] and [2k + 2] both found, and a buffer whose first [len + 1] bytes
    ([len = serial >> 24]) are those that the record's inline value (low bit
    of the serial 0) or the dirty-backup buffer of its area (low bit 1) held
    at access [2k + 1]; beyond them the buffer is as the round found it. *)
Definition stored_value (sp : SystemProperties) (env : nat -> memory)
    (pi : prop_info_ptr) (value_buf : list byte) (info : prop_info.t)
    (stored : list byte) (serial : Z) : Prop :=
  if is_read_only (prop_info.name info) then
    serial = prop_info.serial info /\
    stored = match prop_info.long_value info with
             | Some long => long
             | None => prop_info.value info
             end
  else
    exists (k : nat) before info_k src,
      load_serial (env (2 * k)%nat) pi = Ret serial /\
      load_serial (env (2 * k + 2)%nat) pi = Ret serial /\
      load_info (env (2 * k + 1)%nat) pi = Ret info_k /\
      spec_byte_source sp (env (2 * k + 1)%nat) info_k serial = Some src /\
      length before = length value_buf /\
      SERIAL_VALUE_LEN serial + 1 <= Z.of_nat (length src) /\
      SERIAL_VALUE_LEN serial + 1 <= Z.of_nat (length before) /\
      stored = take (Z.to_nat (SERIAL_VALUE_LEN serial + 1)) src
               ++ drop (Z.to_nat (SERIAL_VALUE_LEN serial + 1)) before.

(** The value [v] that [callback2] gets for a caller with this uid, a record
    of this name and this stored value. *)
Definition substituted_value (getuid : Z) (name : string) (stored v : list byte)
  : Prop :=
  (uid_in_range getuid -> name = "init.svc.adbd"%string -> v = literal "stopped") /\
  (uid_in_range getuid -> name = "sys.usb.configfs"%string -> v = literal "0") /\
  (uid_in_range getuid -> name ∈ usb_names -> v = literal "none") /\
  (~ uid_in_range getuid \/
   name ∉ ("init.svc.adbd" :: "sys.usb.configfs" :: usb_names)%string ->
   v = stored).
(** * Properties *)

(** ** Loads and stores *)

Lemma bind_Ret {A B} (o : outcome A) (k : A -> outcome B) (b : B) :
  o ≫= k = Ret b -> exists a, o = Ret a /\ k a = Ret b.
Proof. destruct o as [a| |]; cbn; intros H; try discriminate. eauto. Qed.

Lemma load_info_Ret m pi info :
  load_info m pi = Ret info <->
  prop_area.props (m (pi_area pi)) !! pi_slot pi = Some info.
Proof.
  unfold load_info. destruct (prop_area.props (m (pi_area pi)) !! pi_slot pi);
    split; intros H; inversion H; reflexivity.
Qed.

Lemma load_info_store_info m pi old new :
  load_info m pi = Ret old -> load_info (store_info m pi new) pi = Ret new.
Proof.
  rewrite !load_info_Ret. intros H. unfold store_info.
  rewrite fn_lookup_insert. cbn.
  apply list_lookup_insert_eq. eapply lookup_lt_Some, H.
Qed.

Lemma load_info_set_dirty_backup_area (m : memory) pa b pi :
  load_info (<[pa := prop_area.set_dirty_backup_area b (m pa)]> m) pi = load_info m pi.
Proof.
  unfold load_info. destruct (decide (pa = pi_area pi)) as [->|Hne].
  - rewrite fn_lookup_insert. reflexivity.
  - rewrite fn_lookup_insert_ne by exact Hne. reflexivity.
Qed.

Lemma load_info_set_serial (m : memory) pa s pi :
  load_info (<[pa := prop_area.set_serial s (m pa)]> m) pi = load_info m pi.
Proof.
  unfold load_info. destruct (decide (pa = pi_area pi)) as [->|Hne].
  - rewrite fn_lookup_insert. reflexivity.
  - rewrite fn_lookup_insert_ne by exact Hne. reflexivity.
Qed.

Lemma serial_store_info m pi info a :
  prop_area.serial (store_info m pi info a) = prop_area.serial (m a).
Proof.
  unfold store_info. destruct (decide (pi_area pi = a)) as [->|Hne].
  - rewrite fn_lookup_insert. reflexivity.
  - rewrite fn_lookup_insert_ne by exact Hne. reflexivity.
Qed.

Lemma serial_set_dirty_backup_area (m : memory) pa b a :
  prop_area.serial ((<[pa := prop_area.set_dirty_backup_area b (m pa)]> m) a)
  = prop_area.serial (m a).
Proof.
  destruct (decide (pa = a)) as [->|Hne].
  - rewrite fn_lookup_insert. reflexivity.
  - rewrite fn_lookup_insert_ne by exact Hne. reflexivity.
Qed.

Lemma store_serial_Ret m pi s info :
  load_info m pi = Ret info ->
  store_serial m pi s = Ret (store_info m pi (prop_info.set_serial s info)).
Proof. intros H. unfold store_serial. rewrite H. reflexivity. Qed.

(** ** The serial word *)

Lemma wrap32_small z : 0 <= z < 2 ^ 32 -> wrap32 z = z.
Proof. intros H. unfold wrap32. apply Z.mod_small, H. Qed.

Lemma shiftl_len_small len :
  0 <= len < PROP_VALUE_MAX -> wrap32 (Z.shiftl len 24) = len * 2 ^ 24.
Proof.
  unfold PROP_VALUE_MAX. intros H. rewrite Z.shiftl_mul_pow2 by lia.
  apply wrap32_small. lia.
Qed.

Lemma final_serial_testbit_low len serial i :
  0 <= len < PROP_VALUE_MAX -> 0 <= i < 24 ->
  Z.testbit (final_serial len serial) i = Z.testbit (wrap32 (Z.lor serial 1 + 1)) i.
Proof.
  intros Hlen Hi. unfold final_serial.
  rewrite Z.lor_spec, Z.land_spec, shiftl_len_small by exact Hlen.
  rewrite Z.mul_pow2_bits_low by lia. cbn [orb].
  change 16777215 with (Z.ones 24). rewrite Z.ones_spec_low by lia.
  apply andb_true_r.
Qed.

Lemma final_serial_clean len serial :
  0 <= len < PROP_VALUE_MAX -> SERIAL_DIRTY (final_serial len serial) = 0.
Proof.
  intros Hlen. unfold SERIAL_DIRTY.
  change 1 with (Z.ones 1). rewrite Z.land_ones by lia.
  change (2 ^ 1) with 2.
  rewrite Zmod_odd. rewrite <- Z.bit0_odd.
  rewrite final_serial_testbit_low by (try exact Hlen; lia).
  unfold wrap32. rewrite Z.mod_pow2_bits_low by lia.
  rewrite Z.bit0_odd, Z.odd_add, <- Z.bit0_odd, Z.lor_spec.
  cbn. rewrite orb_true_r. reflexivity.
Qed.

Lemma final_serial_len len serial :
  0 <= len < PROP_VALUE_MAX -> SERIAL_VALUE_LEN (final_serial len serial) = len.
Proof.
  intros Hlen. unfold SERIAL_VALUE_LEN.
  apply Z.bits_inj'. intros i Hi.
  rewrite Z.shiftr_spec by exact Hi. unfold final_serial.
  rewrite Z.lor_spec, Z.land_spec, shiftl_len_small by exact Hlen.
  rewrite Z.mul_pow2_bits by lia.
  change 16777215 with (Z.ones 24). rewrite Z.ones_spec_high by lia.
  rewrite andb_false_r, orb_false_r. f_equal. lia.
Qed.

(** ** Update *)

Lemma Update_Ret sp m pi v len r m' :
  Update sp m pi v len = Ret (r, m') ->
  (r = -1 /\ m' = m /\
    (PROP_VALUE_MAX <= len \/ initialized_ sp = false \/
     GetSerialPropArea (contexts_ sp) = None \/
     exists info, load_info m pi = Ret info /\
                  GetPropAreaForName (contexts_ sp) (prop_info.name info) = None))
  \/
  (r = 0 /\ len < PROP_VALUE_MAX /\ initialized_ sp = true /\
   exists serial_pa pa info v',
     GetSerialPropArea (contexts_ sp) = Some serial_pa /\
     load_info m pi = Ret info /\
     GetPropAreaForName (contexts_ sp) (prop_info.name info) = Some pa /\
     strlcpy (prop_info.value info) v (len + 1) = Ret v' /\
     load_info m' pi =
       Ret (prop_info.mk (prop_info.name info)
              (final_serial len (prop_info.serial info)) v'
              (prop_info.long_value info)) /\
     prop_area.serial (m' serial_pa) = wrap32 (prop_area.serial (m serial_pa) + 1) /\
     forall a, a <> serial_pa -> prop_area.serial (m' a) = prop_area.serial (m a)).
Proof.
  unfold Update.
  destruct (PROP_VALUE_MAX <=? len) eqn:Hlen.
  { intros [= <- <-]. left. apply Z.leb_le in Hlen. auto. }
  apply Z.leb_gt in Hlen.
  destruct (initialized_ sp) eqn:Hinit; cbn [negb].
  2: { intros [= <- <-]. left. auto 10. }
  destruct (GetSerialPropArea (contexts_ sp)) as [serial_pa|] eqn:Hspa.
  2: { intros [= <- <-]. left. auto 10. }
  intros H. apply bind_Ret in H as (info & Hinfo & H).
  destruct (GetPropAreaForName (contexts_ sp) (prop_info.name info)) as [pa|] eqn:Hpa.
  2: { injection H as <- <-. left. eauto 10. }
  apply bind_Ret in H as (backup & Hbackup & H).
  set (m1 := <[pa:=prop_area.set_dirty_backup_area backup (m pa)]> m) in H.
  assert (Hinfo1 : load_info m1 pi = Ret info)
    by (unfold m1; rewrite load_info_set_dirty_backup_area; exact Hinfo).
  rewrite (store_serial_Ret _ _ _ _ Hinfo1) in H. cbn [mbind outcome_bind] in H.
  set (info2 := prop_info.set_serial (Z.lor (prop_info.serial info) 1) info) in H.
  assert (Hinfo2 : load_info (store_info m1 pi info2) pi = Ret info2)
    by (eapply load_info_store_info; exact Hinfo1).
  rewrite Hinfo2 in H. cbn [mbind outcome_bind] in H.
  apply bind_Ret in H as (v' & Hv' & H).
  set (info3 := prop_info.set_value v' info2) in H.
  assert (Hinfo3 : load_info (store_info (store_info m1 pi info2) pi info3) pi = Ret info3)
    by (eapply load_info_store_info; exact Hinfo2).
  rewrite (store_serial_Ret _ _ _ _ Hinfo3) in H. cbn [mbind outcome_bind] in H.
  injection H as <- <-. right.
  split; [reflexivity|]. split; [exact Hlen|]. split; [reflexivity|].
  exists serial_pa, pa, info, v'.
  split; [reflexivity|]. split; [exact Hinfo|]. split; [exact Hpa|].
  split; [exact Hv'|]. split.
  - rewrite load_info_set_serial.
    erewrite load_info_store_info by exact Hinfo3. reflexivity.
  - split.
    + rewrite fn_lookup_insert. cbn.
      rewrite !serial_store_info. unfold m1.
      rewrite serial_set_dirty_backup_area. reflexivity.
    + intros a Ha. rewrite fn_lookup_insert_ne by congruence.
      rewrite !serial_store_info. unfold m1.
      apply serial_set_dirty_backup_area.
Qed.

(** [Update] is total on a well-formed record: with the lengths inside the
    buffers it returns 0. *)
Lemma Update_succeeds sp m pi v len serial_pa pa info :
  0 <= len < PROP_VALUE_MAX ->
  initialized_ sp = true ->
  GetSerialPropArea (contexts_ sp) = Some serial_pa ->
  load_info m pi = Ret info ->
  GetPropAreaForName (contexts_ sp) (prop_info.name info) = Some pa ->
  SERIAL_VALUE_LEN (prop_info.serial info) + 1 <= Z.of_nat (length (prop_info.value info)) ->
  SERIAL_VALUE_LEN (prop_info.serial info) + 1
    <= Z.of_nat (length (prop_area.dirty_backup_area (m pa))) ->
  len + 1 <= Z.of_nat (length (prop_info.value info)) ->
  exists m', Update sp m pi v len = Ret (0, m').
Proof.
  intros Hlen Hinit Hspa Hinfo Hpa Hold Hbk Hnew. unfold Update.
  destruct (Z.leb_spec PROP_VALUE_MAX len) as [?|_]; [lia|].
  rewrite Hinit, Hspa, Hinfo. cbn [negb mbind outcome_bind]. rewrite Hpa.
  unfold memcpy.
  destruct (Z.leb_spec (SERIAL_VALUE_LEN (prop_info.serial info) + 1)
              (Z.of_nat (length (prop_info.value info)))) as [_|?]; [|lia].
  destruct (Z.leb_spec (SERIAL_VALUE_LEN (prop_info.serial info) + 1)
              (Z.of_nat (length (prop_area.dirty_backup_area (m pa))))) as [_|?]; [|lia].
  cbn [andb mbind outcome_bind].
  match goal with |- context [store_serial ?m1 pi ?s] =>
    assert (Hinfo1 : load_info m1 pi = Ret info)
      by (rewrite load_info_set_dirty_backup_area; exact Hinfo);
    rewrite (store_serial_Ret m1 pi s info Hinfo1)
  end.
  cbn [mbind outcome_bind].
  erewrite load_info_store_info by exact Hinfo1. cbn [mbind outcome_bind].
  unfold strlcpy. cbn [prop_info.set_serial prop_info.value].
  destruct (Z.eqb_spec (len + 1) 0) as [?|_]; [lia|].
  destruct (Z.leb_spec (len + 1) (Z.of_nat (length (prop_info.value info)))) as [_|?]; [|lia].
  cbn [mbind outcome_bind].
  match goal with |- context [store_serial (store_info ?m2 pi ?i3) pi ?s] =>
    rewrite (store_serial_Ret (store_info m2 pi i3) pi s i3)
  end.
  - cbn [mbind outcome_bind]. eexists. reflexivity.
  - eapply load_info_store_info. eapply load_info_store_info. exact Hinfo1.
Qed.

Lemma SERIAL_VALUE_LEN_nonneg serial : 0 <= serial -> 0 <= SERIAL_VALUE_LEN serial.
Proof. intros H. unfold SERIAL_VALUE_LEN. apply Z.shiftr_nonneg, H. Qed.

Lemma Update_refuses_dec sp name len :
  Update_refuses sp name len \/ ~ Update_refuses sp name len.
Proof.
  unfold Update_refuses.
  destruct (Z.le_gt_cases PROP_VALUE_MAX len) as [?|?]; [tauto|].
  destruct (initialized_ sp); [|tauto].
  destruct (GetSerialPropArea (contexts_ sp)); [|tauto].
  destruct (GetPropAreaForName (contexts_ sp) name); [|tauto].
  right. intros [?|[?|[?|?]]]; try discriminate; lia.
Qed.

(** [Update] returns on every well-formed record: -1 with the mapping as it
    was when it refuses, 0 otherwise. *)
Lemma Update_returns sp m pi v len info :
  0 <= len ->
  load_info m pi = Ret info -> wf_info info -> (forall pa, wf_area (m pa)) ->
  exists r m', Update sp m pi v len = Ret (r, m') /\
    (Update_refuses sp (prop_info.name info) len /\ r = -1 /\ m' = m
     \/ ~ Update_refuses sp (prop_info.name info) len /\ r = 0).
Proof.
  intros Hlen Hinfo (Hval & Hser & Hold) Hareas.
  destruct (Update_refuses_dec sp (prop_info.name info) len) as [Hre|Hre].
  - exists (-1), m. split; [|left; auto].
    unfold Update. destruct Hre as [H|[H|[H|H]]].
    + apply Z.leb_le in H. rewrite H. reflexivity.
    + rewrite H. destruct (PROP_VALUE_MAX <=? len); reflexivity.
    + rewrite H. destruct (PROP_VALUE_MAX <=? len), (initialized_ sp); reflexivity.
    + destruct (PROP_VALUE_MAX <=? len), (initialized_ sp); try reflexivity.
      cbn [negb]. destruct (GetSerialPropArea (contexts_ sp)); [|reflexivity].
      rewrite Hinfo. cbn [mbind outcome_bind]. rewrite H. reflexivity.
  - unfold Update_refuses in Hre.
    destruct (initialized_ sp) eqn:Hinit; [|tauto].
    destruct (GetSerialPropArea (contexts_ sp)) as [serial_pa|] eqn:Hspa; [|tauto].
    destruct (GetPropAreaForName (contexts_ sp) (prop_info.name info)) as [pa|] eqn:Hpa;
      [|tauto].
    assert (Hlt : len < PROP_VALUE_MAX) by lia.
    pose proof (Hareas pa) as Hbk. unfold wf_area in Hbk.
    pose proof (SERIAL_VALUE_LEN_nonneg (prop_info.serial info) (proj1 Hser)) as Hnn.
    destruct (Update_succeeds sp m pi v len serial_pa pa info) as [m' Hm'];
      try assumption; try lia.
    exists 0, m'. split; [exact Hm'|]. right. split; [|reflexivity].
    unfold Update_refuses. rewrite Hinit, Hspa, Hpa.
    intros [?|[?|[?|?]]]; try discriminate; lia.
Qed.

Lemma final_serial_unwrapped len serial :
  0 <= len < PROP_VALUE_MAX ->
  final_serial len serial
  = Z.lor (Z.shiftl len 24) (Z.land (Z.lor serial 1 + 1) 16777215).
Proof.
  intros Hlen. unfold final_serial.
  rewrite shiftl_len_small by exact Hlen.
  rewrite Z.shiftl_mul_pow2 by lia. f_equal.
  apply Z.bits_inj'. intros i Hi. rewrite !Z.land_spec.
  change 16777215 with (Z.ones 24).
  destruct (Z.lt_ge_cases i 24) as [Hlow|Hhigh].
  - unfold wrap32. rewrite Z.mod_pow2_bits_low by lia. reflexivity.
  - rewrite Z.ones_spec_high by lia. rewrite !andb_false_r. reflexivity.
Qed.

(** C3 fails as stated: on the fresh record [a.b], whose serial is 0,
    [Update(pi, "hello", 5)] succeeds and leaves the serial [(5 << 24) | 2],
    where the formula of the claim gives [(5 << 24) | 1], a dirty serial. *)
Lemma Update_final_serial_counterexample :
  load_serial demo_memory demo_pi = Ret 0 /\
  exists m',
    Update demo_store demo_memory demo_pi (bytes "hello") 5 = Ret (0, m') /\
    load_serial m' demo_pi = Ret 83886082 /\
    spec_final_serial 5 0 = 83886081 /\
    load_serial m' demo_pi <> Ret (spec_final_serial 5 0).
Proof.
  split; [reflexivity|].
  exists (memory_after (Update demo_store demo_memory demo_pi (bytes "hello") 5)).
  split; [reflexivity|]. split; [reflexivity|]. split; [reflexivity|].
  vm_compute. discriminate.
Qed.

(** C3, amended: after a successful [Update(pi, v, len)] the serial of [pi]
    is [(len << 24) | (((serial_before_dirty | 1) + 1) & 0xFFFFFF)]: the
    counter is advanced from the dirtied serial, not from the serial loaded
    at the start; the word stored has the dirty bit clear and carries the
    length [len]. *)
Theorem Update_final_serial sp m pi v len m' info :
  0 <= len ->
  load_info m pi = Ret info ->
  Update sp m pi v len = Ret (0, m') ->
  load_serial m' pi =
    Ret (Z.lor (Z.shiftl len 24)
               (Z.land (Z.lor (prop_info.serial info) 1 + 1) 16777215)) /\
  SERIAL_DIRTY (Z.lor (Z.shiftl len 24)
                      (Z.land (Z.lor (prop_info.serial info) 1 + 1) 16777215)) = 0 /\
  SERIAL_VALUE_LEN (Z.lor (Z.shiftl len 24)
                          (Z.land (Z.lor (prop_info.serial info) 1 + 1) 16777215)) = len.
Proof.
  intros Hlen Hinfo HU.
  apply Update_Ret in HU as [(Hr & _)|(_ & Hlt & _ & HU)]; [discriminate|].
  destruct HU as (serial_pa & pa & info' & v' & _ & Hinfo' & _ & _ & Hafter & _).
  rewrite Hinfo in Hinfo'. injection Hinfo' as <-.
  rewrite <- final_serial_unwrapped by lia.
  split; [|split].
  - unfold load_serial. rewrite Hafter. reflexivity.
  - apply final_serial_clean. lia.
  - apply final_serial_len. lia.
Qed.

Lemma Update_final_serial_witness :
  load_serial
    (memory_after (Update demo_store demo_memory demo_pi (bytes "hello") 5)) demo_pi
  = Ret 83886082.
Proof.
  apply (Update_final_serial demo_store demo_memory demo_pi (bytes "hello") 5
           (memory_after (Update demo_store demo_memory demo_pi (bytes "hello") 5))
           (prop_info.mk "a.b" 0 blank None)).
  - lia.
  - reflexivity.
  - reflexivity.
Defined.

(** [Update] on a well-formed record, in full: it returns, either refusing
    and leaving the mapping alone, or with the new value and serial in place. *)
Lemma Update_total sp m pi v len info :
  0 <= len ->
  load_info m pi = Ret info -> wf_info info -> (forall pa, wf_area (m pa)) ->
  exists r m', Update sp m pi v len = Ret (r, m') /\
    (Update_refuses sp (prop_info.name info) len /\ r = -1 /\ m' = m
     \/
     ~ Update_refuses sp (prop_info.name info) len /\ r = 0 /\
     exists v', strlcpy (prop_info.value info) v (len + 1) = Ret v' /\
       load_info m' pi =
         Ret (prop_info.mk (prop_info.name info)
                (final_serial len (prop_info.serial info)) v'
                (prop_info.long_value info))).
Proof.
  intros Hlen Hinfo Hwf Hareas.
  destruct (Update_returns sp m pi v len info Hlen Hinfo Hwf Hareas)
    as (r & m' & HU & Hcases).
  exists r, m'. split; [exact HU|].
  destruct Hcases as [(Hre & -> & ->)|(Hre & ->)].
  - left. auto.
  - right. split; [exact Hre|]. split; [reflexivity|].
    apply Update_Ret in HU as [(Hr & _)|(_ & _ & _ & HU)]; [discriminate|].
    destruct HU as (serial_pa & pa & info' & v' & _ & Hinfo' & _ & Hv' & Hafter & _).
    rewrite Hinfo in Hinfo'. injection Hinfo' as <-.
    exists v'. auto.
Qed.

Lemma is_read_only_begins_with_ro name :
  is_read_only name = true <-> begins_with_ro name.
Proof.
  unfold is_read_only, begins_with_ro. split.
  - destruct name as [|a [|b [|c rest]]]; cbn [strncmp_is_0]; try discriminate;
      rewrite ?andb_false_r; try discriminate.
    rewrite andb_true_r. intros H.
    apply andb_prop in H as [Ha H]. apply andb_prop in H as [Hb Hc].
    apply Ascii.eqb_eq in Ha, Hb, Hc. subst. exists rest. reflexivity.
  - intros [rest ->]. reflexivity.
Qed.

(** C4 fails as stated: [Update] never looks at the name.  On the record
    [ro.build.id] with value [ABC], [Update(pi, "XYZ", 3)] returns 0 and
    leaves the value [XYZ] and an advanced serial. *)
Lemma Update_read_only_counterexample :
  begins_with_ro "ro.build.id" /\
  load_info demo_memory demo_ro_pi =
    Ret (prop_info.mk "ro.build.id" 50331648 (bytes "ABC" ++ drop 3 blank) None) /\
  exists m',
    Update demo_store demo_memory demo_ro_pi (bytes "XYZ") 3 = Ret (0, m') /\
    load_info m' demo_ro_pi =
      Ret (prop_info.mk "ro.build.id" 50331650 (bytes "XYZ" ++ drop 3 blank) None).
Proof.
  split; [exists "build.id"%string; reflexivity|].
  split; [reflexivity|].
  exists (memory_after (Update demo_store demo_memory demo_ro_pi (bytes "XYZ") 3)).
  split; reflexivity.
Qed.

(** C4, amended: [Update] makes no read-only check.  For a record whose name
    begins with [ro.], [Update(pi, v, len)] returns -1 and leaves the mapping
    (so the serial and the value of [pi]) unchanged exactly when
    [len >= PROP_VALUE_MAX], the store is not initialised, there is no serial
    area or the router has no area for the name; in every other case it
    returns 0 with the new value and the advanced serial in the record, as
    for any other name. *)
Theorem Update_read_only sp m pi v len info :
  begins_with_ro (prop_info.name info) ->
  0 <= len ->
  load_info m pi = Ret info -> wf_info info -> (forall pa, wf_area (m pa)) ->
  exists r m', Update sp m pi v len = Ret (r, m') /\
    (Update_refuses sp (prop_info.name info) len /\ r = -1 /\ m' = m
     \/
     ~ Update_refuses sp (prop_info.name info) len /\ r = 0 /\
     exists v', strlcpy (prop_info.value info) v (len + 1) = Ret v' /\
       load_info m' pi =
         Ret (prop_info.mk (prop_info.name info)
                (final_serial len (prop_info.serial info)) v'
                (prop_info.long_value info))).
Proof. intros _. apply Update_total. Qed.

Lemma demo_memory_wf pa : wf_area (demo_memory pa).
Proof. reflexivity. Qed.

Lemma Update_read_only_witness :
  exists r m',
    Update demo_store demo_memory demo_ro_pi (bytes "XYZ") 3 = Ret (r, m') /\
    (Update_refuses demo_store "ro.build.id" 3 /\ r = -1 /\ m' = demo_memory
     \/
     ~ Update_refuses demo_store "ro.build.id" 3 /\ r = 0 /\
     exists v', strlcpy (bytes "ABC" ++ drop 3 blank) (bytes "XYZ") (3 + 1) = Ret v' /\
       load_info m' demo_ro_pi =
         Ret (prop_info.mk "ro.build.id" (final_serial 3 50331648) v' None)).
Proof.
  apply (Update_read_only demo_store demo_memory demo_ro_pi (bytes "XYZ") 3
           (prop_info.mk "ro.build.id" 50331648 (bytes "ABC" ++ drop 3 blank) None)).
  - exists "build.id"%string. reflexivity.
  - lia.
  - reflexivity.
  - repeat split; try reflexivity; discriminate.
  - exact demo_memory_wf.
Defined.

(** ** The reader *)

Lemma SERIAL_DIRTY_testbit serial :
  bool_of_int (SERIAL_DIRTY serial) = Z.testbit serial 0.
Proof.
  unfold bool_of_int, SERIAL_DIRTY.
  change 1 with (Z.ones 1). rewrite Z.land_ones by lia. change (2 ^ 1) with 2.
  rewrite Zmod_odd, Z.bit0_odd. destruct (Z.odd serial); reflexivity.
Qed.

Lemma SERIAL_DIRTY_0_testbit serial :
  SERIAL_DIRTY serial = 0 <-> Z.testbit serial 0 = false.
Proof.
  rewrite <- SERIAL_DIRTY_testbit. unfold bool_of_int.
  destruct (Z.eqb_spec (SERIAL_DIRTY serial) 0); cbn; intuition congruence.
Qed.

Lemma memcpy_Ret dst src n out :
  memcpy dst src n = Ret out <->
  n <= Z.of_nat (length src) /\ n <= Z.of_nat (length dst) /\
  out = take (Z.to_nat n) src ++ drop (Z.to_nat n) dst.
Proof.
  unfold memcpy.
  destruct (Z.leb_spec n (Z.of_nat (length src)));
    destruct (Z.leb_spec n (Z.of_nat (length dst))); cbn [andb]; split;
    intros Hyp; try discriminate Hyp; try (exfalso; lia).
  - injection Hyp as <-. auto.
  - destruct Hyp as (_ & _ & ->). reflexivity.
Qed.

Lemma memcpy_length dst src n out :
  memcpy dst src n = Ret out -> length out = length dst.
Proof.
  rewrite memcpy_Ret. intros (Hsrc & Hdst & ->).
  rewrite length_app, length_take, length_drop. lia.
Qed.

Lemma memcpy_not_NullDeref dst src n : memcpy dst src n <> Fault NullDeref.
Proof. unfold memcpy. destruct (_ && _); discriminate. Qed.

(** What one copy does, by the low bit of the serial it was given. *)
Lemma copy_value_spec sp pi m serial value :
  copy_value sp pi m serial value =
  info ← load_info m pi;
  match spec_byte_source sp m info serial with
  | Some src => memcpy value src (SERIAL_VALUE_LEN serial + 1)
  | None => Fault NullDeref
  end.
Proof.
  unfold copy_value, spec_byte_source.
  destruct (load_info m pi) as [info| |]; cbn [mbind outcome_bind]; try reflexivity.
  rewrite SERIAL_DIRTY_testbit. destruct (Z.testbit serial 0); [|reflexivity].
  destruct (GetPropAreaForName (contexts_ sp) (prop_info.name info)); reflexivity.
Qed.

Lemma copy_value_length sp pi m serial value out :
  copy_value sp pi m serial value = Ret out -> length out = length value.
Proof.
  rewrite copy_value_spec. intros H. apply bind_Ret in H as (info & _ & H).
  destruct (spec_byte_source sp m info serial); [|discriminate].
  eapply memcpy_length, H.
Qed.

(** The round that returns: two loads of the serial, at accesses [t + 2k] and
    [t + 2k + 2], found the word [s], and the bytes are those of the copy made
    in between. *)
Lemma ReadMutablePropertyValue_loop_Ret sp env pi rounds :
  forall (t : nat) ns value s out,
  load_serial (env t) pi = Ret ns ->
  ReadMutablePropertyValue_loop sp env pi rounds (S t) ns value = Ret (s, out) ->
  exists (k : nat) before,
    (k < rounds)%nat /\
    load_serial (env (t + 2 * k)%nat) pi = Ret s /\
    copy_value sp pi (env (t + 2 * k + 1)%nat) s before = Ret out /\
    load_serial (env (t + 2 * k + 2)%nat) pi = Ret s /\
    length before = length value.
Proof.
  induction rounds as [|rounds IH]; intros t ns value s out Hns H; [discriminate|].
  cbn [ReadMutablePropertyValue_loop] in H.
  apply bind_Ret in H as (v1 & Hcopy & H).
  apply bind_Ret in H as (ns' & Hns' & H).
  destruct (Z.eqb_spec ns ns') as [<-|Hne].
  - injection H as <- <-. exists O, value.
    replace (t + 2 * 0)%nat with t by lia.
    replace (t + 1)%nat with (S t) by lia.
    replace (t + 2)%nat with (S (S t)) by lia.
    repeat split; try assumption. lia.
  - apply (IH (S (S t))) in H as (k & before & Hk & H1 & H2 & H3 & H4); [|exact Hns'].
    exists (S k), before.
    replace (t + 2 * S k)%nat with (S (S t) + 2 * k)%nat by lia.
    repeat split; try assumption; try lia.
    rewrite H4. eapply copy_value_length, Hcopy.
Qed.

(** A call on which the first two loads of the serial agree returns after one
    round. *)
Lemma ReadMutablePropertyValue_one_round sp env pi rounds value s out :
  load_serial (env O) pi = Ret s ->
  copy_value sp pi (env 1%nat) s value = Ret out ->
  load_serial (env 2%nat) pi = Ret s ->
  ReadMutablePropertyValue sp env pi (S rounds) value = Ret (s, out).
Proof.
  intros H0 H1 H2. unfold ReadMutablePropertyValue. rewrite H0.
  cbn [mbind outcome_bind ReadMutablePropertyValue_loop].
  rewrite H1. cbn [mbind outcome_bind]. rewrite H2. cbn [mbind outcome_bind].
  rewrite Z.eqb_refl. reflexivity.
Qed.

(** No writer at work: the mapping is [m] at every access. *)
Lemma ReadMutablePropertyValue_quiescent sp m pi info rounds value out :
  load_info m pi = Ret info ->
  copy_value sp pi m (prop_info.serial info) value = Ret out ->
  ReadMutablePropertyValue sp (fun _ => m) pi (S rounds) value
  = Ret (prop_info.serial info, out).
Proof.
  intros Hinfo Hcopy. apply ReadMutablePropertyValue_one_round.
  - unfold load_serial. rewrite Hinfo. reflexivity.
  - exact Hcopy.
  - unfold load_serial. rewrite Hinfo. reflexivity.
Qed.

(** With no writer at work the call returns on every well-formed record, as
    long as the router has an area for the name when the serial is dirty. *)
Lemma ReadMutablePropertyValue_returns sp m pi info rounds value :
  load_info m pi = Ret info -> wf_info info -> (forall pa, wf_area (m pa)) ->
  PROP_VALUE_MAX <= Z.of_nat (length value) ->
  (SERIAL_DIRTY (prop_info.serial info) = 0 \/
   GetPropAreaForName (contexts_ sp) (prop_info.name info) <> None) ->
  exists src,
    spec_byte_source sp m info (prop_info.serial info) = Some src /\
    ReadMutablePropertyValue sp (fun _ => m) pi (S rounds) value
    = Ret (prop_info.serial info,
           take (Z.to_nat (SERIAL_VALUE_LEN (prop_info.serial info) + 1)) src
           ++ drop (Z.to_nat (SERIAL_VALUE_LEN (prop_info.serial info) + 1)) value).
Proof.
  intros Hinfo (Hval & Hser & Hlen) Hareas Hbuf Hrouter.
  assert (Hsrc : exists src,
             spec_byte_source sp m info (prop_info.serial info) = Some src /\
             Z.of_nat (length src) = PROP_VALUE_MAX).
  { unfold spec_byte_source.
    destruct (Z.testbit (prop_info.serial info) 0) eqn:Hbit; [|eauto].
    destruct Hrouter as [Hclean|Hrouter].
    - apply SERIAL_DIRTY_0_testbit in Hclean. congruence.
    - destruct (GetPropAreaForName (contexts_ sp) (prop_info.name info)) as [pa|];
        [|congruence].
      exists (prop_area.dirty_backup_area (m pa)). split; [reflexivity|apply Hareas]. }
  destruct Hsrc as (src & Hsrc & Hsrclen). exists src. split; [exact Hsrc|].
  apply ReadMutablePropertyValue_quiescent; [exact Hinfo|].
  rewrite copy_value_spec, Hinfo. cbn [mbind outcome_bind]. rewrite Hsrc.
  apply memcpy_Ret. repeat split; lia.
Qed.

(** C2: a call of [ReadMutablePropertyValue] that returns, returns the serial
    [s] that two consecutive loads (accesses [2k] and [2k + 2]) agreed on, and
    [value] then holds [len + 1] bytes ([len = s >> 24]) copied in between
    (access [2k + 1]) from the dirty-backup buffer of the area of [pi->name]
    when the low bit of [s] is 1 and from the inline value of [pi] when it is
    0, in front of whatever the buffer held beyond them.  And the call does
    return, after one round, when the first two loads agree and the copy stays
    inside the buffers. *)
Theorem ReadMutablePropertyValue_byte_source sp env pi rounds value :
  (forall s out,
     ReadMutablePropertyValue sp env pi rounds value = Ret (s, out) ->
     exists (k : nat) before info src,
       load_serial (env (2 * k)%nat) pi = Ret s /\
       load_serial (env (2 * k + 2)%nat) pi = Ret s /\
       load_info (env (2 * k + 1)%nat) pi = Ret info /\
       spec_byte_source sp (env (2 * k + 1)%nat) info s = Some src /\
       length before = length value /\
       SERIAL_VALUE_LEN s + 1 <= Z.of_nat (length src) /\
       SERIAL_VALUE_LEN s + 1 <= Z.of_nat (length before) /\
       out = take (Z.to_nat (SERIAL_VALUE_LEN s + 1)) src
             ++ drop (Z.to_nat (SERIAL_VALUE_LEN s + 1)) before) /\
  (forall s info src,
     load_serial (env O) pi = Ret s ->
     load_info (env 1%nat) pi = Ret info ->
     spec_byte_source sp (env 1%nat) info s = Some src ->
     SERIAL_VALUE_LEN s + 1 <= Z.of_nat (length src) ->
     SERIAL_VALUE_LEN s + 1 <= Z.of_nat (length value) ->
     load_serial (env 2%nat) pi = Ret s ->
     ReadMutablePropertyValue sp env pi (S rounds) value
     = Ret (s, take (Z.to_nat (SERIAL_VALUE_LEN s + 1)) src
               ++ drop (Z.to_nat (SERIAL_VALUE_LEN s + 1)) value)).
Proof.
  split.
  - intros s out H. unfold ReadMutablePropertyValue in H.
    apply bind_Ret in H as (ns & Hns & H).
    apply ReadMutablePropertyValue_loop_Ret in H
      as (k & before & _ & H1 & H2 & H3 & H4); [|exact Hns].
    rewrite copy_value_spec in H2. apply bind_Ret in H2 as (info & Hinfo & H2).
    destruct (spec_byte_source sp (env (0 + 2 * k + 1)%nat) info s) as [src|] eqn:Hsrc;
      [|discriminate].
    apply memcpy_Ret in H2 as (Hs & Hb & ->).
    exists k, before, info, src. cbn [Nat.add] in *. auto 10.
  - intros s info src H0 Hinfo Hsrc Hs Hv H2.
    apply ReadMutablePropertyValue_one_round; try assumption.
    rewrite copy_value_spec, Hinfo. cbn [mbind outcome_bind]. rewrite Hsrc.
    apply memcpy_Ret. auto.
Qed.

Lemma ReadMutablePropertyValue_byte_source_witness :
  ReadMutablePropertyValue demo_store (fun _ => dirty_memory) demo_pi 1 caller_buffer
  = Ret (16777217, bytes "A" ++ NUL :: drop 2 caller_buffer).
Proof.
  apply (proj2 (ReadMutablePropertyValue_byte_source
                  demo_store (fun _ => dirty_memory) demo_pi O caller_buffer)
           16777217
           (prop_info.mk "a.b" 16777217 (bytes "BB" ++ drop 2 blank) None)
           (bytes "A" ++ drop 1 blank)).
  - reflexivity.
  - reflexivity.
  - reflexivity.
  - vm_compute. discriminate.
  - vm_compute. discriminate.
  - reflexivity.
Defined.

(** C5 fails as stated: [dirty_memory] is the mapping inside the dirty window
    of [Update(pi, "BB", 2)] on [a.b = A]; there the serial word is
    [(1 << 24) | 1] at every load, and the reader returns just that, low bit
    set, with the bytes of the backup. *)
Lemma ReadMutablePropertyValue_clean_counterexample :
  (exists m', Update demo_store A_memory demo_pi (bytes "BB") 2 = Ret (0, m')) /\
  Update_window A_memory demo_pi O (bytes "BB") 2 = Ret dirty_memory /\
  ReadMutablePropertyValue demo_store (fun _ => dirty_memory) demo_pi 1 caller_buffer
  = Ret (16777217, bytes "A" ++ NUL :: drop 2 caller_buffer) /\
  SERIAL_DIRTY 16777217 = 1.
Proof.
  split.
  - exists (memory_after (Update demo_store A_memory demo_pi (bytes "BB") 2)).
    reflexivity.
  - repeat split.
Qed.

(** C5, amended: the serial returned is the serial word as two consecutive
    loads found it, dirty bit included.  Its low bit is 0 whenever the serial
    words the call finds are clean; during the dirty window of an [Update] it
    is the dirty serial that comes back. *)
Theorem ReadMutablePropertyValue_serial sp env pi rounds value s out :
  ReadMutablePropertyValue sp env pi rounds value = Ret (s, out) ->
  (exists k : nat,
     load_serial (env (2 * k)%nat) pi = Ret s /\
     load_serial (env (2 * k + 2)%nat) pi = Ret s) /\
  ((forall t info, load_info (env t) pi = Ret info ->
                   SERIAL_DIRTY (prop_info.serial info) = 0) ->
   SERIAL_DIRTY s = 0) /\
  ((forall t info, load_info (env t) pi = Ret info ->
                   SERIAL_DIRTY (prop_info.serial info) = 1) ->
   SERIAL_DIRTY s = 1).
Proof.
  intros H. unfold ReadMutablePropertyValue in H.
  apply bind_Ret in H as (ns & Hns & H).
  apply ReadMutablePropertyValue_loop_Ret in H
    as (k & before & _ & H1 & _ & H3 & _); [|exact Hns].
  cbn [Nat.add] in *.
  assert (Hword : exists info, load_info (env (2 * k)%nat) pi = Ret info
                               /\ prop_info.serial info = s).
  { unfold load_serial in H1. apply bind_Ret in H1 as (info & Hinfo & [= <-]).
    exists info. auto. }
  destruct Hword as (info & Hinfo & <-).
  split; [exists k; auto|]. split; intros Hall; eapply Hall, Hinfo.
Qed.

Lemma ReadMutablePropertyValue_serial_witness :
  (exists k : nat,
     load_serial (demo_memory) demo_pi = Ret 0 /\
     load_serial (demo_memory) demo_pi = Ret 0) /\
  ((forall (t : nat) info, load_info demo_memory demo_pi = Ret info ->
                   SERIAL_DIRTY (prop_info.serial info) = 0) ->
   SERIAL_DIRTY 0 = 0) /\
  ((forall (t : nat) info, load_info demo_memory demo_pi = Ret info ->
                   SERIAL_DIRTY (prop_info.serial info) = 1) ->
   SERIAL_DIRTY 0 = 1).
Proof.
  apply (ReadMutablePropertyValue_serial demo_store (fun _ => demo_memory) demo_pi 1
           caller_buffer 0 (NUL :: drop 1 caller_buffer)).
  reflexivity.
Defined.

(** ** The dirty window *)

(** A successful [Update] has gone through [Update_window]: there the serial
    of the record is the dirtied one, and the backup of the area holds the
    bytes the inline value had. *)
Lemma Update_through_window sp m pi v len m' :
  Update sp m pi v len = Ret (0, m') ->
  exists pa info mw info_w,
    load_info m pi = Ret info /\
    GetPropAreaForName (contexts_ sp) (prop_info.name info) = Some pa /\
    Update_window m pi pa v len = Ret mw /\
    load_info mw pi = Ret info_w /\
    prop_info.serial info_w = Z.lor (prop_info.serial info) 1 /\
    take (Z.to_nat (SERIAL_VALUE_LEN (prop_info.serial info) + 1))
         (prop_area.dirty_backup_area (mw pa))
    = take (Z.to_nat (SERIAL_VALUE_LEN (prop_info.serial info) + 1))
           (prop_info.value info).
Proof.
  unfold Update.
  destruct (PROP_VALUE_MAX <=? len); [discriminate|].
  destruct (negb (initialized_ sp)); [discriminate|].
  destruct (GetSerialPropArea (contexts_ sp)) as [serial_pa|]; [|discriminate].
  intros H. apply bind_Ret in H as (info & Hinfo & H).
  destruct (GetPropAreaForName (contexts_ sp) (prop_info.name info)) as [pa|] eqn:Hpa;
    [|discriminate].
  apply bind_Ret in H as (backup & Hbackup & H).
  set (m1 := <[pa:=prop_area.set_dirty_backup_area backup (m pa)]> m) in H.
  assert (Hinfo1 : load_info m1 pi = Ret info)
    by (unfold m1; rewrite load_info_set_dirty_backup_area; exact Hinfo).
  rewrite (store_serial_Ret _ _ _ _ Hinfo1) in H. cbn [mbind outcome_bind] in H.
  set (info2 := prop_info.set_serial (Z.lor (prop_info.serial info) 1) info) in H.
  assert (Hinfo2 : load_info (store_info m1 pi info2) pi = Ret info2)
    by (eapply load_info_store_info; exact Hinfo1).
  rewrite Hinfo2 in H. cbn [mbind outcome_bind] in H.
  apply bind_Ret in H as (v' & Hv' & _).
  exists pa, info, (store_info (store_info m1 pi info2) pi (prop_info.set_value v' info2)),
    (prop_info.set_value v' info2).
  split; [exact Hinfo|]. split; [exact Hpa|]. split; [|split; [|split]].
  - unfold Update_window. rewrite Hinfo. cbn [mbind outcome_bind].
    rewrite Hbackup. cbn [mbind outcome_bind]. fold m1.
    rewrite (store_serial_Ret _ _ _ _ Hinfo1). cbn [mbind outcome_bind]. fold info2.
    rewrite Hinfo2. cbn [mbind outcome_bind]. rewrite Hv'. reflexivity.
  - eapply load_info_store_info. exact Hinfo2.
  - reflexivity.
  - apply memcpy_Ret in Hbackup as (Hsrc & Hdst & ->).
    unfold store_info.
    assert (Hbk : forall (mm : memory) a x,
               prop_area.dirty_backup_area
                 ((<[a := prop_area.set_props x (mm a)]> mm) pa)
               = prop_area.dirty_backup_area (mm pa)).
    { intros mm a x. destruct (decide (a = pa)) as [->|Hne].
      - rewrite fn_lookup_insert. reflexivity.
      - rewrite fn_lookup_insert_ne by exact Hne. reflexivity. }
    rewrite !Hbk. unfold m1. rewrite fn_lookup_insert.
    cbn [prop_area.set_dirty_backup_area prop_area.dirty_backup_area].
    apply take_app_length'. rewrite length_take. lia.
Qed.

(** ** The router in the reader *)

Lemma load_info_cases m pi :
  (exists info, load_info m pi = Ret info) \/ load_info m pi = Fault WildPointer.
Proof.
  unfold load_info. destruct (prop_area.props (m (pi_area pi)) !! pi_slot pi); eauto.
Qed.

Lemma copy_value_not_NullDeref sp pi m serial value :
  (forall info, load_info m pi = Ret info ->
                GetPropAreaForName (contexts_ sp) (prop_info.name info) <> None) ->
  copy_value sp pi m serial value <> Fault NullDeref.
Proof.
  intros Hrouter. unfold copy_value.
  destruct (load_info_cases m pi) as [[info Hinfo]|Hinfo]; rewrite Hinfo;
    cbn [mbind outcome_bind]; [|discriminate].
  destruct (bool_of_int (SERIAL_DIRTY serial)).
  - specialize (Hrouter info Hinfo).
    destruct (GetPropAreaForName (contexts_ sp) (prop_info.name info));
      [apply memcpy_not_NullDeref | congruence].
  - apply memcpy_not_NullDeref.
Qed.

Lemma load_serial_not_NullDeref m pi : load_serial m pi <> Fault NullDeref.
Proof.
  unfold load_serial, load_info.
  destruct (prop_area.props (m (pi_area pi)) !! pi_slot pi); discriminate.
Qed.

Lemma ReadMutablePropertyValue_loop_not_NullDeref sp env pi rounds :
  (forall t info, load_info (env t) pi = Ret info ->
                  GetPropAreaForName (contexts_ sp) (prop_info.name info) <> None) ->
  forall t ns value,
  ReadMutablePropertyValue_loop sp env pi rounds t ns value <> Fault NullDeref.
Proof.
  intros Hrouter. induction rounds as [|rounds IH]; intros t ns value; [discriminate|].
  cbn [ReadMutablePropertyValue_loop].
  pose proof (copy_value_not_NullDeref sp pi (env t) ns value (Hrouter t)) as Hcopy.
  destruct (copy_value sp pi (env t) ns value) as [v1|f|]; cbn [mbind outcome_bind];
    [|congruence|discriminate].
  pose proof (load_serial_not_NullDeref (env (S t)) pi) as Hload.
  destruct (load_serial (env (S t)) pi) as [ns'|f|]; cbn [mbind outcome_bind];
    [|congruence|discriminate].
  destruct (ns =? ns'); [discriminate|apply IH].
Qed.

Lemma copy_value_clean sp sp' pi m serial value :
  SERIAL_DIRTY serial = 0 ->
  copy_value sp' pi m serial value = copy_value sp pi m serial value.
Proof. intros H. unfold copy_value. rewrite H. reflexivity. Qed.

Lemma ReadMutablePropertyValue_loop_clean sp sp' env pi rounds :
  (forall t info, load_info (env t) pi = Ret info ->
                  SERIAL_DIRTY (prop_info.serial info) = 0) ->
  forall t ns value,
  SERIAL_DIRTY ns = 0 ->
  ReadMutablePropertyValue_loop sp' env pi rounds t ns value
  = ReadMutablePropertyValue_loop sp env pi rounds t ns value.
Proof.
  intros Hclean. induction rounds as [|rounds IH]; intros t ns value Hns; [reflexivity|].
  cbn [ReadMutablePropertyValue_loop].
  rewrite (copy_value_clean sp sp') by exact Hns.
  destruct (copy_value sp pi (env t) ns value) as [v1|f|]; cbn [mbind outcome_bind];
    try reflexivity.
  unfold load_serial.
  destruct (load_info (env (S t)) pi) as [info| |] eqn:Hinfo; cbn [mbind outcome_bind];
    try reflexivity.
  destruct (ns =? prop_info.serial info); [reflexivity|].
  apply IH. eapply Hclean, Hinfo.
Qed.

(** C10: the dirty branch follows the area the router returns for [pi->name]
    unchecked.  Under the precondition that the router has an area for the
    name, no call follows a null area; without it, a call that finds a dirty
    serial does; and while the serials it finds are clean, the call never
    asks the router: any other router gives the same outcome. *)
Theorem ReadMutablePropertyValue_router_precondition sp env pi rounds value :
  ((forall t info, load_info (env t) pi = Ret info ->
                   GetPropAreaForName (contexts_ sp) (prop_info.name info) <> None) ->
   ReadMutablePropertyValue sp env pi rounds value <> Fault NullDeref) /\
  (forall s info,
     load_serial (env O) pi = Ret s -> SERIAL_DIRTY s = 1 ->
     load_info (env 1%nat) pi = Ret info ->
     GetPropAreaForName (contexts_ sp) (prop_info.name info) = None ->
     ReadMutablePropertyValue sp env pi (S rounds) value = Fault NullDeref) /\
  (forall sp',
     (forall t info, load_info (env t) pi = Ret info ->
                     SERIAL_DIRTY (prop_info.serial info) = 0) ->
     ReadMutablePropertyValue sp' env pi rounds value
     = ReadMutablePropertyValue sp env pi rounds value).
Proof.
  split; [|split].
  - intros Hrouter. unfold ReadMutablePropertyValue.
    pose proof (load_serial_not_NullDeref (env O) pi) as Hload.
    destruct (load_serial (env O) pi) as [ns|f|]; cbn [mbind outcome_bind];
      [|congruence|discriminate].
    apply ReadMutablePropertyValue_loop_not_NullDeref, Hrouter.
  - intros s info Hs Hdirty Hinfo Hnone. unfold ReadMutablePropertyValue.
    rewrite Hs. cbn [mbind outcome_bind ReadMutablePropertyValue_loop].
    unfold copy_value. rewrite Hinfo. cbn [mbind outcome_bind].
    rewrite Hdirty, Hnone. reflexivity.
  - intros sp' Hclean. unfold ReadMutablePropertyValue, load_serial.
    destruct (load_info (env O) pi) as [info| |] eqn:Hinfo; cbn [mbind outcome_bind];
      try reflexivity.
    apply ReadMutablePropertyValue_loop_clean; [exact Hclean|].
    eapply Hclean, Hinfo.
Qed.

Lemma ReadMutablePropertyValue_router_precondition_witness :
  ReadMutablePropertyValue denied_store (fun _ => dirty_memory) demo_pi 1 caller_buffer
  = Fault NullDeref.
Proof.
  apply (proj1 (proj2 (ReadMutablePropertyValue_router_precondition
                         denied_store (fun _ => dirty_memory) demo_pi O caller_buffer))
           16777217
           (prop_info.mk "a.b" 16777217 (bytes "BB" ++ drop 2 blank) None)).
  - reflexivity.
  - reflexivity.
  - reflexivity.
  - reflexivity.
Defined.

(** ** Update, then Read *)

Lemma strlen_le_length s : (strlen s <= length s)%nat.
Proof.
  induction s as [|c s IH]; cbn; [lia|]. destruct (Byte.eqb c NUL); lia.
Qed.

Lemma strlcpy_Ret dst src size out :
  0 < size ->
  strlcpy dst src size = Ret out <->
  size <= Z.of_nat (length dst) /\
  out = take (Nat.min (strlen src) (Z.to_nat (size - 1))) src
        ++ NUL :: drop (S (Nat.min (strlen src) (Z.to_nat (size - 1)))) dst.
Proof.
  intros Hsize. unfold strlcpy.
  destruct (Z.eqb_spec size 0) as [?|_]; [lia|].
  destruct (Z.leb_spec size (Z.of_nat (length dst))); split; intros Hyp.
  - injection Hyp as <-. auto.
  - destruct Hyp as (_ & ->). reflexivity.
  - discriminate Hyp.
  - exfalso. lia.
Qed.

(** The first [k + 1] bytes of a buffer into which a string of [k] bytes and
    its terminator were written. *)
Lemma take_string_NUL (s rest : list byte) (k : nat) :
  (k <= length s)%nat ->
  take (S k) (take k s ++ NUL :: rest) = take k s ++ [NUL].
Proof.
  intros Hk. rewrite take_app, length_take_le by exact Hk.
  rewrite take_take. replace (S k `min` k)%nat with k by lia.
  replace (S k - k)%nat with 1%nat by lia. reflexivity.
Qed.

(** C1: after [Update(pi, v, len)] has returned 0 for a string [v] with
    [strlen(v) = len] (so the store is initialised, the router has an area
    for the name of [pi] and [len < PROP_VALUE_MAX]), a [Read(pi, name_buf,
    value_buf)] with no writer at work returns [len] and leaves in
    [value_buf] the bytes of [v], a NUL, and beyond them what the buffer held
    before. *)
Theorem Update_Read_round_trip sp m pi v len m' rounds name_buf value_buf :
  Z.of_nat (strlen v) = len ->
  Update sp m pi v len = Ret (0, m') ->
  PROP_VALUE_MAX <= Z.of_nat (length value_buf) ->
  (forall buf, name_buf = Some buf -> PROP_NAME_MAX <= Z.of_nat (length buf)) ->
  exists name_buf',
    Read sp (fun _ => m') pi (S rounds) name_buf value_buf
    = Ret (len, name_buf',
           take (strlen v) v ++ NUL :: drop (S (strlen v)) value_buf).
Proof.
  intros Hstr HU Hbuf Hname.
  apply Update_Ret in HU as [(Hr & _)|(_ & Hlt & _ & HU)]; [discriminate|].
  destruct HU as (serial_pa & pa & info & v' & _ & _ & _ & Hv' & Hafter & _).
  assert (Hlen : 0 <= len < PROP_VALUE_MAX) by lia.
  apply strlcpy_Ret in Hv' as (Hroom & Hv'); [|lia].
  replace (Nat.min (strlen v) (Z.to_nat (len + 1 - 1))) with (strlen v) in Hv' by lia.
  set (info' := prop_info.mk (prop_info.name info)
                  (final_serial len (prop_info.serial info)) v'
                  (prop_info.long_value info)) in Hafter.
  assert (Hcopy : copy_value sp pi m' (prop_info.serial info') value_buf
                  = Ret (take (strlen v) v ++ NUL :: drop (S (strlen v)) value_buf)).
  { rewrite copy_value_spec, Hafter. cbn [mbind outcome_bind].
    unfold spec_byte_source. cbn [info' prop_info.serial prop_info.value].
    rewrite (proj1 (SERIAL_DIRTY_0_testbit _) (final_serial_clean len _ Hlen)).
    rewrite final_serial_len by exact Hlen.
    apply memcpy_Ret.
    assert (Hv'len : length v' = length (prop_info.value info)).
    { rewrite Hv'. rewrite length_app. cbn [length].
      rewrite length_take_le by apply strlen_le_length.
      rewrite length_drop. lia. }
    unfold PROP_VALUE_MAX in *.
    split; [lia|]. split; [lia|].
    replace (Z.to_nat (len + 1)) with (S (strlen v)) by lia.
    rewrite Hv', take_string_NUL by apply strlen_le_length.
    rewrite <- app_assoc. reflexivity. }
  unfold Read.
  rewrite (ReadMutablePropertyValue_quiescent sp m' pi info' rounds value_buf _ Hafter Hcopy).
  cbn [mbind outcome_bind info' prop_info.serial].
  rewrite final_serial_len by exact Hlen.
  destruct name_buf as [buf|]; cbn [mbind outcome_bind].
  - rewrite Hafter. cbn [mbind outcome_bind].
    specialize (Hname buf eq_refl).
    unfold strlcpy. unfold PROP_NAME_MAX in *.
    destruct (Z.leb_spec 32 (Z.of_nat (length buf))) as [_|?]; [|lia].
    cbn [Z.eqb mbind outcome_bind]. eexists. reflexivity.
  - eexists. reflexivity.
Qed.

Lemma Update_Read_round_trip_witness :
  exists name_buf',
    Read demo_store
      (fun _ => memory_after (Update demo_store demo_memory demo_pi (bytes "hello") 5))
      demo_pi 1 (Some (replicate 32 "*"%byte)) caller_buffer
    = Ret (5, name_buf', bytes "hello" ++ NUL :: drop 6 caller_buffer).
Proof.
  apply (Update_Read_round_trip demo_store demo_memory demo_pi (bytes "hello") 5
           (memory_after (Update demo_store demo_memory demo_pi (bytes "hello") 5))
           O (Some (replicate 32 "*"%byte)) caller_buffer).
  - reflexivity.
  - reflexivity.
  - vm_compute. discriminate.
  - intros buf [= <-]. vm_compute. discriminate.
Defined.

(** ** Add *)

Lemma Add_area_serial pa_add sp m name namelen value valuelen r m' :
  Add pa_add sp m name namelen value valuelen = (r, m') ->
  (r = -1 /\ forall a, prop_area.serial (m' a) = prop_area.serial (m a))
  \/
  (r = 0 /\ exists s, GetSerialPropArea (contexts_ sp) = Some s /\
     prop_area.serial (m' s) = wrap32 (prop_area.serial (m s) + 1) /\
     forall a, a <> s -> prop_area.serial (m' a) = prop_area.serial (m a)).
Proof.
  unfold Add.
  destruct ((PROP_VALUE_MAX <=? valuelen) && negb (is_read_only name));
    [intros [= <- <-]; auto|].
  destruct (namelen <? 1); [intros [= <- <-]; auto|].
  destruct (negb (initialized_ sp)); [intros [= <- <-]; auto|].
  destruct (GetSerialPropArea (contexts_ sp)) as [serial_pa|]; [|intros [= <- <-]; auto].
  destruct (GetPropAreaForName (contexts_ sp) name) as [pa|]; [|intros [= <- <-]; auto].
  destruct (pa_add (prop_area.props (m pa)) name namelen value valuelen) as [ret ps].
  assert (Hadd : forall a,
             prop_area.serial ((<[pa := prop_area.set_props ps (m pa)]> m) a)
             = prop_area.serial (m a)).
  { intros a. destruct (decide (pa = a)) as [->|Hne].
    - rewrite fn_lookup_insert. reflexivity.
    - rewrite fn_lookup_insert_ne by exact Hne. reflexivity. }
  destruct ret; cbn [negb]; intros [= <- <-].
  - right. split; [reflexivity|]. exists serial_pa. split; [reflexivity|]. split.
    + rewrite fn_lookup_insert. cbn [prop_area.set_serial prop_area.serial].
      rewrite Hadd. reflexivity.
    + intros a Ha. rewrite fn_lookup_insert_ne by congruence. apply Hadd.
  - left. auto.
Qed.

Lemma Update_area_serial sp m pi v len r m' :
  Update sp m pi v len = Ret (r, m') ->
  (r = -1 /\ forall a, prop_area.serial (m' a) = prop_area.serial (m a))
  \/
  (r = 0 /\ exists s, GetSerialPropArea (contexts_ sp) = Some s /\
     prop_area.serial (m' s) = wrap32 (prop_area.serial (m s) + 1) /\
     forall a, a <> s -> prop_area.serial (m' a) = prop_area.serial (m a)).
Proof.
  intros HU. apply Update_Ret in HU as [(-> & -> & _)|(-> & _ & _ & HU)].
  - left. auto.
  - destruct HU as (serial_pa & pa & info & v' & Hspa & _ & _ & _ & _ & Hs & Hother).
    right. split; [reflexivity|]. exists serial_pa. auto.
Qed.

Lemma run_op_area_serial pa_add sp m op r m' :
  run_op pa_add sp m op = Ret (r, m') ->
  (r = -1 /\ forall a, prop_area.serial (m' a) = prop_area.serial (m a))
  \/
  (r = 0 /\ exists s, GetSerialPropArea (contexts_ sp) = Some s /\
     prop_area.serial (m' s) = wrap32 (prop_area.serial (m s) + 1) /\
     forall a, a <> s -> prop_area.serial (m' a) = prop_area.serial (m a)).
Proof.
  destruct op as [name namelen value valuelen|pi value len]; cbn [run_op].
  - intros [= H]. eapply Add_area_serial, H.
  - apply Update_area_serial.
Qed.

Lemma successes_nonneg rs : 0 <= successes rs.
Proof. induction rs as [|r rs IH]; cbn [successes]; [lia|]. destruct (r =? 0); lia. Qed.

Lemma wrap32_range z : 0 <= wrap32 z < 2 ^ 32.
Proof. unfold wrap32. apply Z.mod_pos_bound. lia. Qed.

Lemma wrap32_succ z n : wrap32 (wrap32 (z + 1) + n) = wrap32 (z + (1 + n)).
Proof.
  unfold wrap32. rewrite Z.add_mod_idemp_l by lia. f_equal. lia.
Qed.

Lemma run_ops_area_serial pa_add sp ops :
  forall m rs m',
  run_ops pa_add sp m ops = Ret (rs, m') ->
  (forall a, GetSerialPropArea (contexts_ sp) <> Some a ->
             prop_area.serial (m' a) = prop_area.serial (m a)) /\
  (forall s, GetSerialPropArea (contexts_ sp) = Some s ->
             0 <= prop_area.serial (m s) < 2 ^ 32 ->
             prop_area.serial (m' s) = wrap32 (prop_area.serial (m s) + successes rs)).
Proof.
  induction ops as [|op ops IH]; intros m rs m' H; cbn [run_ops] in H.
  - injection H as <- <-. split; [reflexivity|].
    intros s _ Hrange. cbn [successes]. rewrite Z.add_0_r, wrap32_small; auto.
  - apply bind_Ret in H as ([r m1] & Hop & H).
    apply bind_Ret in H as ([rs1 m2] & Hops & H). injection H as <- <-.
    apply IH in Hops as (IHother & IHserial).
    apply run_op_area_serial in Hop as [(-> & Hsame)|(-> & s & Hs & Hbump & Hother)].
    + split.
      * intros a Ha. rewrite IHother by exact Ha. apply Hsame.
      * intros s Hs Hrange. cbn [successes Z.eqb]. rewrite Z.add_0_l.
        rewrite IHserial; rewrite ?Hsame; auto.
    + split.
      * intros a Ha. rewrite IHother by exact Ha. apply Hother. congruence.
      * intros s' Hs' Hrange. assert (s' = s) as -> by congruence.
        cbn [successes Z.eqb]. rewrite IHserial; [|exact Hs|].
        -- rewrite Hbump. apply wrap32_succ.
        -- rewrite Hbump. apply wrap32_range.
Qed.

(** C6 fails as stated: the area-serial is a 32-bit word.  With the counter
    at [0xFFFFFFFF] a successful [Update] leaves it at 0: it has not
    increased, and it is not one more than before. *)
Lemma area_serial_counterexample :
  AreaSerial demo_store wrapping_memory = 4294967295 /\
  exists m',
    Update demo_store wrapping_memory demo_pi (bytes "hello") 5 = Ret (0, m') /\
    AreaSerial demo_store m' = 0 /\
    ~ AreaSerial demo_store wrapping_memory < AreaSerial demo_store m' /\
    AreaSerial demo_store m' <> AreaSerial demo_store wrapping_memory + 1.
Proof.
  split; [reflexivity|].
  exists (memory_after (Update demo_store wrapping_memory demo_pi (bytes "hello") 5)).
  split; [reflexivity|]. split; [reflexivity|]. split; vm_compute; congruence.
Qed.

(** C6, amended: every [Add] and every [Update] that returns 0 adds 1 to the
    area-serial of the serial area modulo 2^32 (so it grows by exactly 1
    unless it was [0xFFFFFFFF]) and touches no other area-serial; one that
    returns -1 leaves every area-serial as it was.  Over a sequence of calls
    the area-serial ends at its first value plus the number of calls that
    returned 0, modulo 2^32, and has not decreased as long as that sum stays
    below 2^32. *)
Theorem area_serial_advance pa_add sp m :
  (forall op r m1,
     run_op pa_add sp m op = Ret (r, m1) ->
     (r = 0 /\ exists s, GetSerialPropArea (contexts_ sp) = Some s /\
        prop_area.serial (m1 s) = wrap32 (prop_area.serial (m s) + 1) /\
        (0 <= prop_area.serial (m s) < 2 ^ 32 - 1 ->
         prop_area.serial (m1 s) = prop_area.serial (m s) + 1) /\
        forall a, a <> s -> prop_area.serial (m1 a) = prop_area.serial (m a))
     \/
     (r = -1 /\ forall a, prop_area.serial (m1 a) = prop_area.serial (m a))) /\
  (forall ops rs m' s,
     run_ops pa_add sp m ops = Ret (rs, m') ->
     GetSerialPropArea (contexts_ sp) = Some s ->
     0 <= prop_area.serial (m s) < 2 ^ 32 ->
     prop_area.serial (m' s) = wrap32 (prop_area.serial (m s) + successes rs) /\
     (prop_area.serial (m s) + successes rs < 2 ^ 32 ->
      prop_area.serial (m' s) = prop_area.serial (m s) + successes rs /\
      prop_area.serial (m s) <= prop_area.serial (m' s))).
Proof.
  split.
  - intros op r m1 Hop.
    apply run_op_area_serial in Hop as [(-> & Hsame)|(-> & s & Hs & Hbump & Hother)].
    + right. auto.
    + left. split; [reflexivity|]. exists s. repeat split; try assumption.
      intros Hrange. rewrite Hbump. apply wrap32_small. lia.
  - intros ops rs m' s Hrun Hs Hrange.
    apply run_ops_area_serial in Hrun as (_ & Hserial).
    specialize (Hserial s Hs Hrange). split; [exact Hserial|].
    intros Hroom. pose proof (successes_nonneg rs) as Hnn.
    rewrite Hserial, wrap32_small by lia. lia.
Qed.

Lemma area_serial_advance_witness :
  run_ops slab_add demo_store demo_memory demo_ops
  = Ret ([0; 0; -1], memory_after (run_ops slab_add demo_store demo_memory demo_ops)) /\
  prop_area.serial (memory_after (run_ops slab_add demo_store demo_memory demo_ops) O)
  = wrap32 (0 + successes [0; 0; -1]) /\
  (0 + successes [0; 0; -1] < 2 ^ 32 ->
   prop_area.serial (memory_after (run_ops slab_add demo_store demo_memory demo_ops) O)
   = 0 + successes [0; 0; -1] /\
   0 <= prop_area.serial
          (memory_after (run_ops slab_add demo_store demo_memory demo_ops) O)).
Proof.
  split; [reflexivity|].
  apply (proj2 (area_serial_advance slab_add demo_store demo_memory)
           demo_ops [0; 0; -1]
           (memory_after (run_ops slab_add demo_store demo_memory demo_ops)) O).
  - reflexivity.
  - reflexivity.
  - vm_compute. split; [discriminate|reflexivity].
Defined.

(** C7: [Add] returns -1, the mapping untouched, whenever [namelen < 1],
    whenever the store is not initialised, and whenever
    [valuelen >= PROP_VALUE_MAX] for a name that does not begin with [ro.].
    With a name of at least one byte, an initialised store, a serial area
    and an area for the name, a name that begins with [ro.] (whatever
    [valuelen]) and any name with [valuelen = PROP_VALUE_MAX - 1] get past
    the length check: the result is then that of [prop_area::add]. *)
Theorem Add_preconditions pa_add sp m name namelen value valuelen :
  (namelen < 1 -> Add pa_add sp m name namelen value valuelen = (-1, m)) /\
  (initialized_ sp = false -> Add pa_add sp m name namelen value valuelen = (-1, m)) /\
  (PROP_VALUE_MAX <= valuelen -> ~ begins_with_ro name ->
   Add pa_add sp m name namelen value valuelen = (-1, m)) /\
  (forall serial_pa pa,
     1 <= namelen -> initialized_ sp = true ->
     GetSerialPropArea (contexts_ sp) = Some serial_pa ->
     GetPropAreaForName (contexts_ sp) name = Some pa ->
     begins_with_ro name \/ valuelen = PROP_VALUE_MAX - 1 ->
     fst (Add pa_add sp m name namelen value valuelen)
     = if fst (pa_add (prop_area.props (m pa)) name namelen value valuelen)
       then 0 else -1).
Proof.
  unfold Add. repeat split.
  - intros Hname. destruct (_ && _); [reflexivity|].
    destruct (Z.ltb_spec namelen 1); [reflexivity|lia].
  - intros ->. destruct (_ && _); [reflexivity|]. destruct (namelen <? 1); reflexivity.
  - intros Hlen Hro. apply Z.leb_le in Hlen. rewrite Hlen.
    destruct (is_read_only name) eqn:Hr; [|reflexivity].
    apply is_read_only_begins_with_ro in Hr. contradiction.
  - intros serial_pa pa Hname Hinit Hspa Hpa Hpass.
    assert (Hcheck : (PROP_VALUE_MAX <=? valuelen) && negb (is_read_only name) = false).
    { destruct Hpass as [Hro| ->].
      - apply is_read_only_begins_with_ro in Hro. rewrite Hro. apply andb_false_r.
      - reflexivity. }
    rewrite Hcheck, Hinit, Hspa, Hpa. cbn [negb].
    destruct (Z.ltb_spec namelen 1); [lia|].
    destruct (pa_add (prop_area.props (m pa)) name namelen value valuelen) as [[|] ps];
      reflexivity.
Qed.

Lemma Add_preconditions_witness :
  Add slab_add demo_store demo_memory "net.dns1" 0 (bytes "8.8.8.8") 7
  = (-1, demo_memory) /\
  Add slab_add fresh_store demo_memory "net.dns1" 8 (bytes "8.8.8.8") 7
  = (-1, demo_memory) /\
  Add slab_add demo_store demo_memory "net.dns1" 8 (replicate 92 "8"%byte) 92
  = (-1, demo_memory) /\
  fst (Add slab_add demo_store demo_memory "ro.long" 7 (replicate 92 "8"%byte) 92) = 0 /\
  fst (Add slab_add demo_store demo_memory "net.dns1" 8 (replicate 91 "8"%byte) 91) = 0.
Proof.
  split; [|split; [|split; [|split]]].
  - apply (proj1 (Add_preconditions slab_add demo_store demo_memory
                    "net.dns1" 0 (bytes "8.8.8.8") 7)). lia.
  - apply (proj1 (proj2 (Add_preconditions slab_add fresh_store demo_memory
                           "net.dns1" 8 (bytes "8.8.8.8") 7))). reflexivity.
  - apply (proj1 (proj2 (proj2 (Add_preconditions slab_add demo_store demo_memory
                                  "net.dns1" 8 (replicate 92 "8"%byte) 92)))).
    + vm_compute. discriminate.
    + intros [rest Hrest]. discriminate Hrest.
  - apply (proj2 (proj2 (proj2 (Add_preconditions slab_add demo_store demo_memory
                                  "ro.long" 7 (replicate 92 "8"%byte) 92))) O O).
    + lia.
    + reflexivity.
    + reflexivity.
    + reflexivity.
    + left. exists "long"%string. reflexivity.
  - apply (proj2 (proj2 (proj2 (Add_preconditions slab_add demo_store demo_memory
                                  "net.dns1" 8 (replicate 91 "8"%byte) 91))) O O).
    + lia.
    + reflexivity.
    + reflexivity.
    + reflexivity.
    + right. reflexivity.
Defined.

(** ** Wait *)

(** On the path through the loop the contract holds: [false] comes from a
    [__futex_wait] that timed out and leaves [*new_serial_ptr] alone, [true]
    comes with a serial other than [old_serial] in [*new_serial_ptr]. *)
Lemma Wait_loop_contract env futex rounds :
  forall t p old_serial at_ptr b w,
  Wait_loop env futex rounds t p old_serial at_ptr = Ret (b, w) ->
  (b = false -> w = at_ptr /\ exists t', futex t' = - ETIMEDOUT) /\
  (b = true -> w <> old_serial).
Proof.
  induction rounds as [|rounds IH]; intros t p old_serial at_ptr b w H; [discriminate|].
  cbn [Wait_loop] in H.
  destruct (negb (futex t =? 0) && (futex t =? - ETIMEDOUT)) eqn:Hrc.
  - injection H as <- <-. split; [|discriminate].
    intros _. split; [reflexivity|]. exists t.
    apply andb_prop in Hrc as [_ Hrc]. apply Z.eqb_eq, Hrc.
  - apply bind_Ret in H as (new_serial & _ & H).
    destruct (Z.eqb_spec new_serial old_serial) as [_|Hne].
    + eapply IH, H.
    + injection H as <- <-. split; [discriminate|]. intros _. exact Hne.
Qed.

(** C8, the code at the failing inputs: with [pi] null, on a store that is not
    initialised or has no serial area, [Wait] returns [true] ([return -1] in a
    function that returns [bool]) and [*new_serial_ptr] is what it was, whatever
    [old_serial] is, and so also when it held [old_serial]; no [__futex_wait]
    is made. *)
Theorem Wait_without_serial_area env futex rounds old_serial at_new_serial_ptr :
  Wait fresh_store env futex rounds None old_serial at_new_serial_ptr
  = Ret (true, at_new_serial_ptr) /\
  Wait no_serial_store env futex rounds None old_serial at_new_serial_ptr
  = Ret (true, at_new_serial_ptr) /\
  WaitAny fresh_store env futex rounds old_serial old_serial = Ret old_serial.
Proof. repeat split. Qed.

(** ** ReadCallback *)

Lemma int_of_uint32_in_range getuid :
  0 <= getuid < 2 ^ 32 ->
  (uid_in_range (int_of_uint32 getuid) <-> uid_in_range getuid).
Proof.
  intros Hrange. unfold int_of_uint32, uid_in_range.
  destruct (Z.lt_ge_cases getuid (2 ^ 31)) as [Hlow|Hhigh].
  - rewrite Z.mod_small by lia. lia.
  - replace ((getuid + 2 ^ 31) mod 2 ^ 32) with (getuid - 2 ^ 31).
    + lia.
    + apply Z.mod_unique with (q := 1); lia.
Qed.

Lemma uid_test uid :
  ((10000 <=? uid) && (uid <=? 19999)) || ((90000 <=? uid) && (uid <=? 99999)) = true
  <-> uid_in_range uid.
Proof.
  unfold uid_in_range.
  rewrite orb_true_iff, !andb_true_iff, !Z.leb_le. reflexivity.
Qed.

Lemma strcmp_is_0_eq s1 s2 : strcmp_is_0 s1 s2 = true <-> s1 = s2.
Proof. apply String.eqb_eq. Qed.

Lemma strcmp_is_0_neq s1 s2 : strcmp_is_0 s1 s2 = false <-> s1 <> s2.
Proof. apply String.eqb_neq. Qed.

Lemma callback_value getuid name stored serial :
  0 <= getuid < 2 ^ 32 ->
  exists v,
    callback getuid name stored serial = mk_call name v serial /\
    (uid_in_range getuid -> name = "init.svc.adbd"%string -> v = literal "stopped") /\
    (uid_in_range getuid -> name = "sys.usb.configfs"%string -> v = literal "0") /\
    (uid_in_range getuid -> name ∈ usb_names -> v = literal "none") /\
    (~ uid_in_range getuid \/
     name ∉ ("init.svc.adbd" :: "sys.usb.configfs" :: usb_names)%string ->
     v = stored).
Proof.
  intros Hrange. unfold callback.
  pose proof (int_of_uint32_in_range getuid Hrange) as Huid.
  rewrite <- uid_test in Huid.
  destruct (_ || _) eqn:Htest.
  - assert (Hin : uid_in_range getuid) by (apply Huid; reflexivity).
    destruct (strcmp_is_0 name "init.svc.adbd") eqn:H1.
    { apply strcmp_is_0_eq in H1 as ->. eexists. split; [reflexivity|].
      repeat split; intros; name_cases. }
    destruct (strcmp_is_0 name "sys.usb.configfs") eqn:H2.
    { apply strcmp_is_0_eq in H2 as ->. eexists. split; [reflexivity|].
      repeat split; intros; name_cases. }
    destruct (strcmp_is_0 name "persist.sys.usb.config"
              || strcmp_is_0 name "sys.usb.config"
              || strcmp_is_0 name "sys.usb.state") eqn:H3.
    { eexists. split; [reflexivity|].
      apply orb_prop in H3 as [H3|H3]; [apply orb_prop in H3 as [H3|H3]|];
        apply strcmp_is_0_eq in H3 as ->; repeat split; intros; name_cases. }
    eexists. split; [reflexivity|].
    apply orb_false_elim in H3 as [H3 H5]. apply orb_false_elim in H3 as [H3 H4].
    apply strcmp_is_0_neq in H1, H2, H3, H4, H5.
    repeat split; intros; name_cases.
  - assert (Hout : ~ uid_in_range getuid).
    { intros Hin. apply Huid in Hin. discriminate. }
    eexists. split; [reflexivity|].
    repeat split; intros; try reflexivity; contradiction.
Qed.

(** A call of the reader that returns, traced back to the mapping: the serial
    is one that two loads found, the bytes are those copied in between. *)
Lemma ReadMutablePropertyValue_Ret sp env pi rounds value s out :
  ReadMutablePropertyValue sp env pi rounds value = Ret (s, out) ->
  exists (k : nat) before info src,
    load_serial (env (2 * k)%nat) pi = Ret s /\
    load_serial (env (2 * k + 2)%nat) pi = Ret s /\
    load_info (env (2 * k + 1)%nat) pi = Ret info /\
    spec_byte_source sp (env (2 * k + 1)%nat) info s = Some src /\
    length before = length value /\
    SERIAL_VALUE_LEN s + 1 <= Z.of_nat (length src) /\
    SERIAL_VALUE_LEN s + 1 <= Z.of_nat (length before) /\
    out = take (Z.to_nat (SERIAL_VALUE_LEN s + 1)) src
          ++ drop (Z.to_nat (SERIAL_VALUE_LEN s + 1)) before.
Proof.
  intros H. unfold ReadMutablePropertyValue in H.
  apply bind_Ret in H as (ns & Hns & H).
  apply ReadMutablePropertyValue_loop_Ret in H
    as (k & before & _ & H1 & H2 & H3 & H4); [|exact Hns].
  rewrite copy_value_spec in H2. apply bind_Ret in H2 as (info & Hinfo & H2).
  destruct (spec_byte_source sp (env (0 + 2 * k + 1)%nat) info s) as [src|] eqn:Hsrc;
    [|discriminate].
  apply memcpy_Ret in H2 as (Hs & Hb & ->).
  exists k, before, info, src. cbn [Nat.add] in *. auto 10.
Qed.

Lemma callback_args_of getuid name stored serial :
  0 <= getuid < 2 ^ 32 ->
  exists v,
    callback getuid name stored serial = mk_call name v serial /\
    substituted_value getuid name stored v.
Proof.
  intros Hrange.
  destruct (callback_value getuid name stored serial Hrange) as (v & Hcall & Hv).
  exists v. split; [exact Hcall|exact Hv].
Qed.

(** C9: whenever [ReadCallback] calls [callback2], it passes the name of the
    record and the serial of [stored_value], and as value: [stopped] when the
    uid is in [10000, 19999] or [90000, 99999] and the name is
    [init.svc.adbd], [0] when it is [sys.usb.configfs], [none] when it is
    [persist.sys.usb.config], [sys.usb.config] or [sys.usb.state], whatever
    is stored; for every other uid or name the value is the stored value,
    read from the mapping as [stored_value] says.  And the call is made: with
    no writer at work, on a well-formed record, [callback2] gets the serial of
    the record and, unless substituted, the long or inline value of a [ro.]
    record, and for any other name the first [len + 1] bytes of the inline
    value (of the backup when the serial is dirty) in front of the rest of
    the stack buffer. *)
Theorem ReadCallback_substitution sp env rounds getuid pi value_buf :
  0 <= getuid < 2 ^ 32 ->
  (forall call,
     ReadCallback sp env rounds getuid pi value_buf = Ret call ->
     exists info stored,
       load_info (env O) pi = Ret info /\
       cb_name call = prop_info.name info /\
       stored_value sp env pi value_buf info stored (cb_serial call) /\
       substituted_value getuid (prop_info.name info) stored (cb_value call)) /\
  (forall m info,
     load_info m pi = Ret info ->
     wf_info info -> (forall pa, wf_area (m pa)) ->
     PROP_VALUE_MAX <= Z.of_nat (length value_buf) ->
     SERIAL_DIRTY (prop_info.serial info) = 0 \/
     GetPropAreaForName (contexts_ sp) (prop_info.name info) <> None ->
     exists v stored,
       ReadCallback sp (fun _ => m) (S rounds) getuid pi value_buf
       = Ret (mk_call (prop_info.name info) v (prop_info.serial info)) /\
       (if is_read_only (prop_info.name info)
        then stored = match prop_info.long_value info with
                      | Some long => long
                      | None => prop_info.value info
                      end
        else exists src,
               spec_byte_source sp m info (prop_info.serial info) = Some src /\
               stored
               = take (Z.to_nat (SERIAL_VALUE_LEN (prop_info.serial info) + 1)) src
                 ++ drop (Z.to_nat (SERIAL_VALUE_LEN (prop_info.serial info) + 1))
                         value_buf) /\
       substituted_value getuid (prop_info.name info) stored v).
Proof.
  intros Hrange. split.
  - intros call H. unfold ReadCallback in H.
    apply bind_Ret in H as (info & Hinfo & H).
    exists info. unfold stored_value.
    destruct (is_read_only (prop_info.name info)) eqn:Hro.
    + set (stored := match prop_info.long_value info with
                     | Some long => long
                     | None => prop_info.value info
                     end).
      assert (Hcall : call = callback getuid (prop_info.name info) stored
                               (prop_info.serial info)).
      { unfold stored. destruct (prop_info.long_value info); congruence. }
      destruct (callback_args_of getuid (prop_info.name info) stored
                  (prop_info.serial info) Hrange) as (v & Hv & Hsub).
      rewrite Hv in Hcall. subst call. exists stored.
      cbn [cb_name cb_serial cb_value]. auto.
    + apply bind_Ret in H as ([serial out] & Hread & H).
      injection H as <-.
      destruct (callback_args_of getuid (prop_info.name info) out serial Hrange)
        as (v & Hv & Hsub).
      rewrite Hv. cbn [cb_name cb_serial cb_value].
      exists out. split; [exact Hinfo|]. split; [reflexivity|]. split; [|exact Hsub].
      apply ReadMutablePropertyValue_Ret in Hread
        as (k & before & info_k & src & H).
      exists k, before, info_k, src. exact H.
  - intros m info Hinfo Hwf Hareas Hbuf Hrouter.
    unfold ReadCallback. rewrite Hinfo. cbn [mbind outcome_bind].
    destruct (is_read_only (prop_info.name info)) eqn:Hro.
    + set (stored := match prop_info.long_value info with
                     | Some long => long
                     | None => prop_info.value info
                     end).
      destruct (callback_args_of getuid (prop_info.name info) stored
                  (prop_info.serial info) Hrange) as (v & Hv & Hsub).
      exists v, stored. split; [|split; [reflexivity|exact Hsub]].
      rewrite <- Hv. unfold stored. destruct (prop_info.long_value info); reflexivity.
    + destruct (ReadMutablePropertyValue_returns sp m pi info rounds value_buf
                  Hinfo Hwf Hareas Hbuf Hrouter) as (src & Hsrc & Hread).
      rewrite Hread. cbn [mbind outcome_bind].
      match goal with |- context [callback getuid _ ?out _] =>
        destruct (callback_args_of getuid (prop_info.name info) out
                    (prop_info.serial info) Hrange) as (v & Hv & Hsub);
        exists v, out
      end.
      rewrite Hv. split; [reflexivity|]. split; [|exact Hsub].
      exists src. split; [exact Hsrc|reflexivity].
Qed.

Lemma ReadCallback_substitution_witness :
  (exists v stored,
     ReadCallback demo_store (fun _ => adbd_memory) 1 10001 demo_pi caller_buffer
     = Ret (mk_call "init.svc.adbd" v 117440512) /\
     (exists src,
        spec_byte_source demo_store adbd_memory
          (prop_info.mk "init.svc.adbd" 117440512 (bytes "running" ++ drop 7 blank) None)
          117440512 = Some src /\
        stored = take (Z.to_nat (SERIAL_VALUE_LEN 117440512 + 1)) src
                 ++ drop (Z.to_nat (SERIAL_VALUE_LEN 117440512 + 1)) caller_buffer) /\
     substituted_value 10001 "init.svc.adbd" stored v) /\
  (exists info stored,
     load_info adbd_memory demo_pi = Ret info /\
     "init.svc.adbd"%string = prop_info.name info /\
     stored_value demo_store (fun _ => adbd_memory) demo_pi caller_buffer info stored
       117440512 /\
     substituted_value 0 (prop_info.name info) stored
       (bytes "running" ++ NUL :: drop 8 caller_buffer)).
Proof.
  split.
  - apply (proj2 (ReadCallback_substitution demo_store (fun _ => adbd_memory) O 10001
                    demo_pi caller_buffer ltac:(lia))
             adbd_memory
             (prop_info.mk "init.svc.adbd" 117440512 (bytes "running" ++ drop 7 blank)
                None)).
    + reflexivity.
    + repeat split; try reflexivity; discriminate.
    + intros pa. reflexivity.
    + vm_compute. discriminate.
    + left. reflexivity.
  - apply (proj1 (ReadCallback_substitution demo_store (fun _ => adbd_memory) 1 0
                    demo_pi caller_buffer ltac:(lia))
             (mk_call "init.svc.adbd" (bytes "running" ++ NUL :: drop 8 caller_buffer)
                117440512)).
    reflexivity.
Defined.

(** * Further properties *)

(** ** What a successful Update leaves behind *)

Lemma fn_insert_apply (m : memory) a x b :
  (<[a := x]> m) b = if decide (a = b) then x else m b.
Proof. reflexivity. Qed.

(** The whole mapping after a successful [Update], area by area. *)
Lemma Update_effect sp m pi v len m' :
  Update sp m pi v len = Ret (0, m') ->
  exists serial_pa pa info backup v',
    GetSerialPropArea (contexts_ sp) = Some serial_pa /\
    load_info m pi = Ret info /\
    GetPropAreaForName (contexts_ sp) (prop_info.name info) = Some pa /\
    memcpy (prop_area.dirty_backup_area (m pa)) (prop_info.value info)
           (SERIAL_VALUE_LEN (prop_info.serial info) + 1) = Ret backup /\
    strlcpy (prop_info.value info) v (len + 1) = Ret v' /\
    len < PROP_VALUE_MAX /\
    forall a,
      m' a = prop_area.mk
               (if decide (serial_pa = a) then wrap32 (prop_area.serial (m a) + 1)
                else prop_area.serial (m a))
               (if decide (pa = a) then backup else prop_area.dirty_backup_area (m a))
               (if decide (pi_area pi = a)
                then <[pi_slot pi :=
                         prop_info.mk (prop_info.name info)
                           (final_serial len (prop_info.serial info)) v'
                           (prop_info.long_value info)]> (prop_area.props (m a))
                else prop_area.props (m a)).
Proof.
  unfold Update.
  destruct (Z.leb_spec PROP_VALUE_MAX len) as [|Hlen]; [discriminate|].
  destruct (negb (initialized_ sp)); [discriminate|].
  destruct (GetSerialPropArea (contexts_ sp)) as [serial_pa|]; [|discriminate].
  intros H. apply bind_Ret in H as (info & Hinfo & H).
  destruct (GetPropAreaForName (contexts_ sp) (prop_info.name info)) as [pa|] eqn:Hpa;
    [|discriminate].
  apply bind_Ret in H as (backup & Hbackup & H).
  set (m1 := <[pa:=prop_area.set_dirty_backup_area backup (m pa)]> m) in H.
  assert (Hinfo1 : load_info m1 pi = Ret info)
    by (unfold m1; rewrite load_info_set_dirty_backup_area; exact Hinfo).
  rewrite (store_serial_Ret _ _ _ _ Hinfo1) in H. cbn [mbind outcome_bind] in H.
  set (info2 := prop_info.set_serial (Z.lor (prop_info.serial info) 1) info) in H.
  assert (Hinfo2 : load_info (store_info m1 pi info2) pi = Ret info2)
    by (eapply load_info_store_info; exact Hinfo1).
  rewrite Hinfo2 in H. cbn [mbind outcome_bind] in H.
  apply bind_Ret in H as (v' & Hv' & H).
  set (info3 := prop_info.set_value v' info2) in H.
  assert (Hinfo3 : load_info (store_info (store_info m1 pi info2) pi info3) pi = Ret info3)
    by (eapply load_info_store_info; exact Hinfo2).
  rewrite (store_serial_Ret _ _ _ _ Hinfo3) in H. cbn [mbind outcome_bind] in H.
  injection H as <-.
  exists serial_pa, pa, info, backup, v'. repeat (split; [first [reflexivity|assumption]|]).
  intros a. unfold store_info, m1. rewrite !fn_insert_apply.
  repeat (rewrite ?fn_insert_apply; case_decide); subst;
    cbn [prop_area.set_serial prop_area.set_props prop_area.set_dirty_backup_area
           prop_area.serial prop_area.props prop_area.dirty_backup_area];
    rewrite ?fn_insert_apply; repeat case_decide; try congruence;
    cbn [prop_area.set_serial prop_area.set_props prop_area.set_dirty_backup_area
           prop_area.serial prop_area.props prop_area.dirty_backup_area];
    rewrite ?list_insert_insert_eq; try reflexivity.
  all: destruct (m a); reflexivity.
Qed.

Lemma final_serial_range len serial :
  0 <= len < PROP_VALUE_MAX -> 0 <= final_serial len serial < 2 ^ 32.
Proof.
  intros Hlen.
  assert (H : final_serial len serial = wrap32 (final_serial len serial)).
  { apply Z.bits_inj'. intros i Hi. unfold wrap32 at 1.
    destruct (Z.lt_ge_cases i 32) as [Hlow|Hhigh].
    - rewrite Z.mod_pow2_bits_low by lia. reflexivity.
    - rewrite Z.mod_pow2_bits_high by lia. unfold final_serial.
      rewrite Z.lor_spec, Z.land_spec, shiftl_len_small by exact Hlen.
      rewrite Z.mul_pow2_bits by lia.
      change 16777215 with (Z.ones 24). rewrite Z.ones_spec_high by lia.
      rewrite andb_false_r, orb_false_r.
      destruct (Z.eq_dec len 0) as [->|Hnz]; [apply Z.bits_0|].
      apply Z.bits_above_log2; [lia|].
      assert (Z.log2 len < 7); [|lia].
      apply Z.log2_lt_pow2; unfold PROP_VALUE_MAX in Hlen; lia. }
  rewrite H. apply wrap32_range.
Qed.

Lemma strlcpy_length dst src size out :
  0 <= size -> strlcpy dst src size = Ret out -> length out = length dst.
Proof.
  intros Hsize. destruct (Z.eq_dec size 0) as [->|Hnz].
  - intros [= <-]. reflexivity.
  - intros H. apply strlcpy_Ret in H as (Hroom & ->); [|lia].
    set (k := Nat.min (strlen src) (Z.to_nat (size - 1))).
    pose proof (strlen_le_length src).
    rewrite length_app. cbn [length]. rewrite length_take_le, length_drop by lia. lia.
Qed.

(** What [Read] finds after any successful [Update], whatever [strlen(v)]
    is. *)
Lemma Read_after_Update sp m pi v len m' info rounds name_buf value_buf :
  0 <= len ->
  load_info m pi = Ret info ->
  Update sp m pi v len = Ret (0, m') ->
  PROP_VALUE_MAX <= Z.of_nat (length value_buf) ->
  (forall buf, name_buf = Some buf -> PROP_NAME_MAX <= Z.of_nat (length buf)) ->
  exists name_buf' v',
    strlcpy (prop_info.value info) v (len + 1) = Ret v' /\
    len + 1 <= Z.of_nat (length v') /\
    ReadMutablePropertyValue sp (fun _ => m') pi (S rounds) value_buf
    = Ret (final_serial len (prop_info.serial info),
           take (Z.to_nat (len + 1)) v' ++ drop (Z.to_nat (len + 1)) value_buf) /\
    Read sp (fun _ => m') pi (S rounds) name_buf value_buf
    = Ret (len, name_buf',
           take (Z.to_nat (len + 1)) v' ++ drop (Z.to_nat (len + 1)) value_buf).
Proof.
  intros Hnn Hinfo HU Hbuf Hname.
  apply Update_Ret in HU as [(Hr & _)|(_ & Hlt & _ & HU)]; [discriminate|].
  destruct HU as (serial_pa & pa & info0 & v' & _ & Hinfo0 & _ & Hv' & Hafter & _).
  rewrite Hinfo in Hinfo0. injection Hinfo0 as <-.
  assert (Hlen : 0 <= len < PROP_VALUE_MAX) by lia.
  assert (Hroom : len + 1 <= Z.of_nat (length v')).
  { rewrite (strlcpy_length _ _ (len + 1) _ ltac:(lia) Hv').
    apply strlcpy_Ret in Hv' as (Hroom & _); lia. }
  set (info' := prop_info.mk (prop_info.name info)
                  (final_serial len (prop_info.serial info)) v'
                  (prop_info.long_value info)) in Hafter.
  assert (Hcopy : copy_value sp pi m' (prop_info.serial info') value_buf
                  = Ret (take (Z.to_nat (len + 1)) v'
                         ++ drop (Z.to_nat (len + 1)) value_buf)).
  { rewrite copy_value_spec, Hafter. cbn [mbind outcome_bind].
    unfold spec_byte_source. cbn [info' prop_info.serial prop_info.value].
    rewrite (proj1 (SERIAL_DIRTY_0_testbit _) (final_serial_clean len _ Hlen)).
    rewrite final_serial_len by exact Hlen.
    apply memcpy_Ret. unfold PROP_VALUE_MAX in *. repeat split; lia. }
  pose proof (ReadMutablePropertyValue_quiescent sp m' pi info' rounds value_buf _
                Hafter Hcopy) as Hread.
  cbn [info' prop_info.serial] in Hread.
  assert (Hnamed : exists name_buf',
             Read sp (fun _ => m') pi (S rounds) name_buf value_buf
             = Ret (len, name_buf',
                    take (Z.to_nat (len + 1)) v' ++ drop (Z.to_nat (len + 1)) value_buf)).
  { unfold Read. rewrite Hread. cbn [mbind outcome_bind].
    rewrite final_serial_len by exact Hlen.
    destruct name_buf as [buf|]; cbn [mbind outcome_bind].
    - rewrite Hafter. cbn [mbind outcome_bind].
      specialize (Hname buf eq_refl).
      unfold strlcpy. unfold PROP_NAME_MAX in *.
      destruct (Z.leb_spec 32 (Z.of_nat (length buf))) as [_|?]; [|lia].
      cbn [Z.eqb mbind outcome_bind]. eexists. reflexivity.
    - eexists. reflexivity. }
  destruct Hnamed as (name_buf' & Hnamed).
  exists name_buf', v'. auto.
Qed.

Lemma ptr_eq_dec (q pi : prop_info_ptr) : q = pi \/ q <> pi.
Proof.
  destruct q as [qa qs], pi as [pa ps].
  destruct (decide (qa = pa)) as [->|?]; [|right; congruence].
  destruct (decide (qs = ps)) as [->|?]; [left; reflexivity|right; congruence].
Qed.

(** One [Update] on a well-formed mapping. *)
Lemma Update_well_formed_step sp m pi v len info :
  0 <= len ->
  wf_memory m ->
  load_info m pi = Ret info ->
  exists r m',
    Update sp m pi v len = Ret (r, m') /\
    (r = 0 \/ r = -1) /\
    wf_memory m' /\
    (forall q, q <> pi -> load_info m' q = load_info m q) /\
    (exists info',
       load_info m' pi = Ret info' /\
       prop_info.name info' = prop_info.name info /\
       prop_info.long_value info' = prop_info.long_value info /\
       (r = 0 -> SERIAL_DIRTY (prop_info.serial info') = 0 /\
                 SERIAL_VALUE_LEN (prop_info.serial info') = len)).
Proof.
  intros Hnn [Hareas Hrecs] Hinfo.
  destruct (Update_returns sp m pi v len info Hnn Hinfo (Hrecs _ _ Hinfo) Hareas)
    as (r & m' & HU & Hcases).
  exists r, m'. split; [exact HU|].
  destruct Hcases as [(_ & -> & ->)|(_ & ->)].
  - split; [auto|]. split; [split; assumption|]. split; [reflexivity|].
    exists info. repeat split; try assumption; discriminate.
  - split; [auto|].
    apply Update_effect in HU
      as (serial_pa & pa & info0 & backup & v' & _ & Hinfo0 & _ & Hbackup & Hv' & Hlt & Hm').
    rewrite Hinfo in Hinfo0. injection Hinfo0 as <-.
    assert (Hlen : 0 <= len < PROP_VALUE_MAX) by lia.
    set (info' := prop_info.mk (prop_info.name info)
                    (final_serial len (prop_info.serial info)) v'
                    (prop_info.long_value info)) in Hm'.
    assert (Hwf' : wf_info info').
    { destruct (Hrecs _ _ Hinfo) as (Hval & _ & _). unfold wf_info.
      cbn [info' prop_info.value prop_info.serial].
      rewrite (strlcpy_length _ _ (len + 1) _ ltac:(lia) Hv'), final_serial_len by exact Hlen.
      split; [exact Hval|]. split; [apply final_serial_range, Hlen|lia]. }
    assert (Hslot : (pi_slot pi < length (prop_area.props (m (pi_area pi))))%nat).
    { apply load_info_Ret in Hinfo. eapply lookup_lt_Some, Hinfo. }
    assert (Hload_pi : load_info m' pi = Ret info').
    { unfold load_info. rewrite Hm'. cbn [prop_area.props].
      rewrite decide_True by reflexivity.
      rewrite list_lookup_insert_eq by exact Hslot. reflexivity. }
    assert (Hload : forall q, q <> pi -> load_info m' q = load_info m q).
    { intros q Hq. unfold load_info. rewrite Hm'. cbn [prop_area.props].
      destruct q as [qa qs], pi as [pa' ps]. cbn [pi_area pi_slot] in *.
      destruct (decide (pa' = qa)) as [->|Hne]; [|reflexivity].
      rewrite list_lookup_insert_ne by congruence. reflexivity. }
    split; [split|split].
    + intros a. unfold wf_area. rewrite Hm'. cbn [prop_area.dirty_backup_area].
      case_decide; [subst|apply Hareas].
      rewrite (memcpy_length _ _ _ _ Hbackup). apply Hareas.
    + intros q infoq. destruct (ptr_eq_dec q pi) as [->|Hq].
      * rewrite Hload_pi. intros [= <-]. exact Hwf'.
      * rewrite Hload by exact Hq. apply Hrecs.
    + exact Hload.
    + exists info'. split; [exact Hload_pi|].
      repeat split; try reflexivity.
      * apply final_serial_clean, Hlen.
      * apply final_serial_len, Hlen.
Qed.

(** X1.  On a well-formed mapping [Update] always returns, and what it leaves
    is well-formed again: buffers keep their sizes, the serial written has
    the dirty bit clear and carries [len], names and long values stay, and no
    record but [pi] is touched. *)
Theorem Update_keeps_well_formed sp m pi v len info :
  0 <= len ->
  wf_memory m ->
  load_info m pi = Ret info ->
  exists r m',
    Update sp m pi v len = Ret (r, m') /\
    (r = 0 \/ r = -1) /\
    wf_memory m' /\
    (forall q, q <> pi -> load_info m' q = load_info m q) /\
    (exists info',
       load_info m' pi = Ret info' /\
       prop_info.name info' = prop_info.name info /\
       prop_info.long_value info' = prop_info.long_value info /\
       (r = 0 -> SERIAL_DIRTY (prop_info.serial info') = 0 /\
                 SERIAL_VALUE_LEN (prop_info.serial info') = len)).
Proof. apply Update_well_formed_step. Qed.

Lemma demo_memory_wf_memory : wf_memory demo_memory.
Proof.
  split; [exact demo_memory_wf|].
  intros [a [|[|slot]]] info H; vm_compute in H; try discriminate H;
    injection H as <-; repeat split; try reflexivity; discriminate.
Qed.

Lemma Update_keeps_well_formed_witness :
  exists r m',
    Update demo_store demo_memory demo_pi (bytes "hello") 5 = Ret (r, m') /\
    wf_memory m'.
Proof.
  destruct (Update_keeps_well_formed demo_store demo_memory demo_pi (bytes "hello") 5
              (prop_info.mk "a.b" 0 blank None))
    as (r & m' & HU & _ & Hwf & _).
  - lia.
  - exact demo_memory_wf_memory.
  - reflexivity.
  - exists r, m'. split; assumption.
Defined.

(** X2.  [Update] cuts the string at [len]: when [strlen(v) >= len], a [Read]
    after the successful [Update(pi, v, len)] returns [len] and finds the
    first [len] bytes of [v] and a NUL. *)
Theorem Update_truncates sp m pi v len m' rounds name_buf value_buf :
  0 <= len <= Z.of_nat (strlen v) ->
  Update sp m pi v len = Ret (0, m') ->
  PROP_VALUE_MAX <= Z.of_nat (length value_buf) ->
  (forall buf, name_buf = Some buf -> PROP_NAME_MAX <= Z.of_nat (length buf)) ->
  exists name_buf',
    Read sp (fun _ => m') pi (S rounds) name_buf value_buf
    = Ret (len, name_buf',
           take (Z.to_nat len) v ++ NUL :: drop (S (Z.to_nat len)) value_buf).
Proof.
  intros Hlen HU Hbuf Hname.
  assert (Hinfo : exists info, load_info m pi = Ret info).
  { apply Update_Ret in HU as [(Hr & _)|(_ & _ & _ & ? & ? & info & ? & _ & H & _)];
      [discriminate|eauto]. }
  destruct Hinfo as (info & Hinfo).
  destruct (Read_after_Update sp m pi v len m' info rounds name_buf value_buf
              ltac:(lia) Hinfo HU Hbuf Hname) as (name_buf' & v' & Hv' & _ & _ & HR).
  exists name_buf'. rewrite HR. do 2 f_equal.
  apply strlcpy_Ret in Hv' as (_ & ->); [|lia].
  replace (Nat.min (strlen v) (Z.to_nat (len + 1 - 1))) with (Z.to_nat len) by lia.
  replace (Z.to_nat (len + 1)) with (S (Z.to_nat len)) by lia.
  pose proof (strlen_le_length v).
  rewrite take_string_NUL by lia. rewrite <- app_assoc. reflexivity.
Qed.

Lemma Update_truncates_witness :
  exists name_buf',
    Read demo_store
      (fun _ => memory_after (Update demo_store demo_memory demo_pi (bytes "hello") 2))
      demo_pi 1 None caller_buffer
    = Ret (2, name_buf', bytes "he" ++ NUL :: drop 3 caller_buffer).
Proof.
  apply (Update_truncates demo_store demo_memory demo_pi (bytes "hello") 2
           (memory_after (Update demo_store demo_memory demo_pi (bytes "hello") 2))
           O None caller_buffer).
  - vm_compute. split; discriminate.
  - reflexivity.
  - vm_compute. discriminate.
  - intros buf H. discriminate H.
Defined.

(** X3.  [Update] trusts [len]: when [strlen(v) < len], the serial still
    records [len], and a [Read] returns [len] with [v], its NUL and then the
    bytes the inline value held before at the places up to [len]. *)
Theorem Update_short_string sp m pi v len m' info rounds name_buf value_buf :
  Z.of_nat (strlen v) < len ->
  load_info m pi = Ret info ->
  Update sp m pi v len = Ret (0, m') ->
  PROP_VALUE_MAX <= Z.of_nat (length value_buf) ->
  (forall buf, name_buf = Some buf -> PROP_NAME_MAX <= Z.of_nat (length buf)) ->
  exists name_buf',
    Read sp (fun _ => m') pi (S rounds) name_buf value_buf
    = Ret (len, name_buf',
           take (strlen v) v
           ++ NUL :: take (Z.to_nat len - strlen v)
                          (drop (S (strlen v)) (prop_info.value info))
           ++ drop (S (Z.to_nat len)) value_buf).
Proof.
  intros Hlen Hinfo HU Hbuf Hname.
  destruct (Read_after_Update sp m pi v len m' info rounds name_buf value_buf
              ltac:(lia) Hinfo HU Hbuf Hname) as (name_buf' & v' & Hv' & _ & _ & HR).
  exists name_buf'. rewrite HR. do 2 f_equal.
  apply strlcpy_Ret in Hv' as (_ & ->); [|lia].
  replace (Nat.min (strlen v) (Z.to_nat (len + 1 - 1))) with (strlen v) by lia.
  replace (Z.to_nat (len + 1)) with (S (Z.to_nat len)) by lia.
  pose proof (strlen_le_length v).
  rewrite take_app, length_take_le by lia.
  rewrite take_ge by (rewrite length_take; lia).
  replace (S (Z.to_nat len) - strlen v)%nat with (S (Z.to_nat len - strlen v)) by lia.
  cbn [take]. rewrite <- app_assoc. reflexivity.
Qed.

Lemma Update_short_string_witness :
  exists name_buf',
    Read demo_store
      (fun _ => memory_after (Update demo_store demo_memory demo_ro_pi (bytes "X") 2))
      demo_ro_pi 1 None caller_buffer
    = Ret (2, name_buf', bytes "X" ++ NUL :: bytes "C" ++ drop 3 caller_buffer).
Proof.
  apply (Update_short_string demo_store demo_memory demo_ro_pi (bytes "X") 2
           (memory_after (Update demo_store demo_memory demo_ro_pi (bytes "X") 2))
           (prop_info.mk "ro.build.id" 50331648 (bytes "ABC" ++ drop 3 blank) None)
           O None caller_buffer).
  - reflexivity.
  - reflexivity.
  - reflexivity.
  - vm_compute. discriminate.
  - intros buf H. discriminate H.
Defined.

(** X4.  Two updates in a row and a read: on a well-formed mapping, with a
    store that does not refuse, [Update(pi, v1, len1)] and then
    [Update(pi, v2, len2)] both return 0, and [Read] then returns [len2] and
    finds [v2]: nothing of the first value is left in what it reports. *)
Theorem Update_twice_Read sp m pi v1 len1 v2 len2 info rounds name_buf value_buf :
  wf_memory m ->
  load_info m pi = Ret info ->
  0 <= len1 -> ~ Update_refuses sp (prop_info.name info) len1 ->
  0 <= len2 <= Z.of_nat (strlen v2) ->
  ~ Update_refuses sp (prop_info.name info) len2 ->
  PROP_VALUE_MAX <= Z.of_nat (length value_buf) ->
  (forall buf, name_buf = Some buf -> PROP_NAME_MAX <= Z.of_nat (length buf)) ->
  exists m1 m2 name_buf',
    Update sp m pi v1 len1 = Ret (0, m1) /\
    Update sp m1 pi v2 len2 = Ret (0, m2) /\
    Read sp (fun _ => m2) pi (S rounds) name_buf value_buf
    = Ret (len2, name_buf',
           take (Z.to_nat len2) v2 ++ NUL :: drop (S (Z.to_nat len2)) value_buf).
Proof.
  intros Hwf Hinfo Hlen1 Hre1 Hlen2 Hre2 Hbuf Hname.
  destruct (Update_well_formed_step sp m pi v1 len1 info Hlen1 Hwf Hinfo)
    as (r1 & m1 & HU1 & _ & Hwf1 & _ & info1 & Hinfo1 & Hname1 & _).
  assert (r1 = 0) as ->.
  { apply Update_Ret in HU1 as [(_ & _ & Hre)|(-> & _)]; [|reflexivity].
    exfalso. apply Hre1. unfold Update_refuses.
    destruct Hre as [?|[?|[?|(i & Hi & ?)]]]; auto.
    rewrite Hinfo in Hi. injection Hi as <-. auto. }
  destruct (Update_well_formed_step sp m1 pi v2 len2 info1 ltac:(lia) Hwf1 Hinfo1)
    as (r2 & m2 & HU2 & _).
  assert (r2 = 0) as ->.
  { apply Update_Ret in HU2 as [(_ & _ & Hre)|(-> & _)]; [|reflexivity].
    exfalso. apply Hre2. unfold Update_refuses. rewrite <- Hname1.
    destruct Hre as [?|[?|[?|(i & Hi & ?)]]]; auto.
    rewrite Hinfo1 in Hi. injection Hi as <-. auto. }
  destruct (Read_after_Update sp m1 pi v2 len2 m2 info1 rounds name_buf value_buf
              ltac:(lia) Hinfo1 HU2 Hbuf Hname) as (name_buf' & v' & Hv' & _ & _ & HR).
  exists m1, m2, name_buf'. split; [exact HU1|]. split; [exact HU2|].
  rewrite HR. do 2 f_equal.
  apply strlcpy_Ret in Hv' as (_ & ->); [|lia].
  replace (Nat.min (strlen v2) (Z.to_nat (len2 + 1 - 1))) with (Z.to_nat len2) by lia.
  replace (Z.to_nat (len2 + 1)) with (S (Z.to_nat len2)) by lia.
  pose proof (strlen_le_length v2).
  rewrite take_string_NUL by lia. rewrite <- app_assoc. reflexivity.
Qed.

Lemma Update_twice_Read_witness :
  exists m1 m2 name_buf',
    Update demo_store demo_memory demo_pi (bytes "hello") 5 = Ret (0, m1) /\
    Update demo_store m1 demo_pi (bytes "hi") 2 = Ret (0, m2) /\
    Read demo_store (fun _ => m2) demo_pi 1 None caller_buffer
    = Ret (2, name_buf', bytes "hi" ++ NUL :: drop 3 caller_buffer).
Proof.
  apply (Update_twice_Read demo_store demo_memory demo_pi (bytes "hello") 5
           (bytes "hi") 2 (prop_info.mk "a.b" 0 blank None) O None caller_buffer).
  - exact demo_memory_wf_memory.
  - reflexivity.
  - lia.
  - intros [H|[H|[H|H]]]; vm_compute in H; try discriminate H. apply H. reflexivity.
  - vm_compute. split; discriminate.
  - intros [H|[H|[H|H]]]; vm_compute in H; try discriminate H. apply H. reflexivity.
  - vm_compute. discriminate.
  - intros buf H. discriminate H.
Defined.

(** ** The serial always moves *)

Lemma lor_1_even serial : Z.testbit serial 0 = false -> Z.lor serial 1 = serial + 1.
Proof.
  intros Heven. rewrite <- Zbitwise.Z.add_lor_land.
  replace (Z.land serial 1) with 0; [lia|].
  symmetry. apply SERIAL_DIRTY_0_testbit, Heven.
Qed.

Lemma final_serial_mod len serial :
  0 <= len < PROP_VALUE_MAX ->
  final_serial len serial mod 2 ^ 24 = (Z.lor serial 1 + 1) mod 2 ^ 24.
Proof.
  intros Hlen. rewrite <- !Z.land_ones by lia.
  apply Z.bits_inj'. intros i Hi. rewrite !Z.land_spec.
  destruct (Z.lt_ge_cases i 24) as [Hlow|Hhigh].
  - rewrite final_serial_testbit_low by (try exact Hlen; lia).
    unfold wrap32. rewrite Z.mod_pow2_bits_low by lia. reflexivity.
  - rewrite Z.ones_spec_high by lia. rewrite !andb_false_r. reflexivity.
Qed.

(** The word [Update] stores is never the word it found. *)
Lemma final_serial_neq len serial :
  0 <= len < PROP_VALUE_MAX -> final_serial len serial <> serial.
Proof.
  intros Hlen Heq.
  destruct (Z.testbit serial 0) eqn:Hbit.
  - pose proof (final_serial_clean len serial Hlen) as Hclean.
    rewrite Heq in Hclean. apply SERIAL_DIRTY_0_testbit in Hclean. congruence.
  - pose proof (final_serial_mod len serial Hlen) as Hmod.
    rewrite Heq, lor_1_even in Hmod by exact Hbit.
    rewrite (Z.mod_eq serial), (Z.mod_eq (serial + 1 + 1)) in Hmod by lia.
    change (2 ^ 24) with 16777216 in Hmod. lia.
Qed.

(** ** Readers while the writer works *)

Lemma SERIAL_VALUE_LEN_lor_1 serial :
  SERIAL_VALUE_LEN (Z.lor serial 1) = SERIAL_VALUE_LEN serial.
Proof.
  unfold SERIAL_VALUE_LEN. rewrite Z.shiftr_lor.
  change (Z.shiftr 1 24) with 0. apply Z.lor_0_r.
Qed.

Lemma testbit_lor_1 serial : Z.testbit (Z.lor serial 1) 0 = true.
Proof. rewrite Z.lor_spec. apply orb_true_r. Qed.

Lemma dirty_backup_area_store_info m pi info a :
  prop_area.dirty_backup_area (store_info m pi info a)
  = prop_area.dirty_backup_area (m a).
Proof.
  unfold store_info. destruct (decide (pi_area pi = a)) as [->|Hne].
  - rewrite fn_lookup_insert. reflexivity.
  - rewrite fn_lookup_insert_ne by exact Hne. reflexivity.
Qed.

(** The mapping in the window, read off [Update_window]. *)
Lemma Update_window_Ret m pi pa v len mw info :
  load_info m pi = Ret info ->
  Update_window m pi pa v len = Ret mw ->
  exists v',
    load_info mw pi =
      Ret (prop_info.mk (prop_info.name info) (Z.lor (prop_info.serial info) 1) v'
             (prop_info.long_value info)) /\
    SERIAL_VALUE_LEN (prop_info.serial info) + 1
      <= Z.of_nat (length (prop_info.value info)) /\
    SERIAL_VALUE_LEN (prop_info.serial info) + 1
      <= Z.of_nat (length (prop_area.dirty_backup_area (m pa))) /\
    prop_area.dirty_backup_area (mw pa)
    = take (Z.to_nat (SERIAL_VALUE_LEN (prop_info.serial info) + 1)) (prop_info.value info)
      ++ drop (Z.to_nat (SERIAL_VALUE_LEN (prop_info.serial info) + 1))
              (prop_area.dirty_backup_area (m pa)).
Proof.
  intros Hinfo H. unfold Update_window in H. rewrite Hinfo in H.
  cbn [mbind outcome_bind] in H.
  apply bind_Ret in H as (backup & Hbackup & H).
  set (m1 := <[pa:=prop_area.set_dirty_backup_area backup (m pa)]> m) in H.
  assert (Hinfo1 : load_info m1 pi = Ret info)
    by (unfold m1; rewrite load_info_set_dirty_backup_area; exact Hinfo).
  rewrite (store_serial_Ret _ _ _ _ Hinfo1) in H. cbn [mbind outcome_bind] in H.
  set (info2 := prop_info.set_serial (Z.lor (prop_info.serial info) 1) info) in H.
  assert (Hinfo2 : load_info (store_info m1 pi info2) pi = Ret info2)
    by (eapply load_info_store_info; exact Hinfo1).
  rewrite Hinfo2 in H. cbn [mbind outcome_bind] in H.
  apply bind_Ret in H as (v' & Hv' & H). injection H as <-.
  exists v'. apply memcpy_Ret in Hbackup as (Hsrc & Hdst & ->).
  split; [|split; [exact Hsrc|split; [exact Hdst|]]].
  - erewrite load_info_store_info by exact Hinfo2. reflexivity.
  - rewrite !dirty_backup_area_store_info. unfold m1.
    rewrite fn_lookup_insert. reflexivity.
Qed.

(** X5.  A reader that runs while a successful [Update] is between its two
    stores of the serial gets the value from before the [Update]: it returns
    the old serial with the dirty bit set and the [old_len + 1] bytes the
    inline value held, taken from the backup, and nothing of the new value. *)
Theorem reader_in_dirty_window sp m pi v len m' info rounds value_buf :
  load_info m pi = Ret info ->
  Update sp m pi v len = Ret (0, m') ->
  SERIAL_VALUE_LEN (prop_info.serial info) + 1 <= Z.of_nat (length value_buf) ->
  exists pa mw,
    GetPropAreaForName (contexts_ sp) (prop_info.name info) = Some pa /\
    Update_window m pi pa v len = Ret mw /\
    ReadMutablePropertyValue sp (fun _ => mw) pi (S rounds) value_buf
    = Ret (Z.lor (prop_info.serial info) 1,
           take (Z.to_nat (SERIAL_VALUE_LEN (prop_info.serial info) + 1))
                (prop_info.value info)
           ++ drop (Z.to_nat (SERIAL_VALUE_LEN (prop_info.serial info) + 1)) value_buf).
Proof.
  intros Hinfo HU Hbuf.
  destruct (Update_through_window sp m pi v len m' HU)
    as (pa & info0 & mw & _ & Hinfo0 & Hpa & Hw & _).
  rewrite Hinfo in Hinfo0. injection Hinfo0 as <-.
  destruct (Update_window_Ret m pi pa v len mw info Hinfo Hw)
    as (v' & Hinfow & Hsrc & Hdst & Hbackup).
  exists pa, mw. split; [exact Hpa|]. split; [exact Hw|].
  set (n := Z.to_nat (SERIAL_VALUE_LEN (prop_info.serial info) + 1)) in *.
  set (infow := prop_info.mk (prop_info.name info) (Z.lor (prop_info.serial info) 1) v'
                  (prop_info.long_value info)) in Hinfow.
  apply (ReadMutablePropertyValue_quiescent sp mw pi infow rounds value_buf _ Hinfow).
  rewrite copy_value_spec, Hinfow. cbn [mbind outcome_bind].
  unfold spec_byte_source. cbn [infow prop_info.serial prop_info.name].
  rewrite testbit_lor_1, Hpa, SERIAL_VALUE_LEN_lor_1.
  assert (Hlen : length (prop_area.dirty_backup_area (mw pa))
                 = length (prop_area.dirty_backup_area (m pa))).
  { rewrite Hbackup, length_app, length_take, length_drop. lia. }
  apply memcpy_Ret. split; [lia|]. split; [exact Hbuf|].
  fold n. f_equal. rewrite Hbackup. symmetry. apply take_app_length'.
  rewrite length_take. lia.
Qed.

Lemma reader_in_dirty_window_witness :
  exists pa mw,
    GetPropAreaForName (contexts_ demo_store) "a.b" = Some pa /\
    Update_window A_memory demo_pi pa (bytes "BB") 2 = Ret mw /\
    ReadMutablePropertyValue demo_store (fun _ => mw) demo_pi 1 caller_buffer
    = Ret (16777217, bytes "A" ++ NUL :: drop 2 caller_buffer).
Proof.
  apply (reader_in_dirty_window demo_store A_memory demo_pi (bytes "BB") 2
           (memory_after (Update demo_store A_memory demo_pi (bytes "BB") 2))
           (prop_info.mk "a.b" 16777216 (bytes "A" ++ drop 1 blank) None)
           O caller_buffer).
  - reflexivity.
  - reflexivity.
  - vm_compute. discriminate.
Defined.

(** X6.  A reader that an [Update] overtakes starts again: when the serial
    was loaded before the [Update] and everything from the second load on
    comes after it, the first copy (whatever it found) is not what the call
    returns; after a second round the call returns the serial the [Update]
    stored and the first [len + 1] bytes of the new inline value. *)
Theorem reader_overtaken_by_Update sp m mid m' pi v len info rounds value_buf first :
  0 <= len ->
  load_info m pi = Ret info ->
  Update sp m pi v len = Ret (0, m') ->
  copy_value sp pi mid (prop_info.serial info) value_buf = Ret first ->
  PROP_VALUE_MAX <= Z.of_nat (length value_buf) ->
  exists v',
    strlcpy (prop_info.value info) v (len + 1) = Ret v' /\
    ReadMutablePropertyValue sp (overtaken m mid m') pi (S (S rounds)) value_buf
    = Ret (final_serial len (prop_info.serial info),
           take (Z.to_nat (len + 1)) v' ++ drop (Z.to_nat (len + 1)) first).
Proof.
  intros Hnn Hinfo HU Hfirst Hbuf.
  assert (Hfirstlen : PROP_VALUE_MAX <= Z.of_nat (length first)).
  { rewrite (copy_value_length _ _ _ _ _ _ Hfirst). exact Hbuf. }
  destruct (Read_after_Update sp m pi v len m' info O None first Hnn Hinfo HU Hfirstlen)
    as (_ & v' & Hv' & _ & Hread & _); [discriminate|].
  exists v'. split; [exact Hv'|].
  assert (Hlt : 0 <= len < PROP_VALUE_MAX).
  { apply Update_Ret in HU as [(Hr & _)|(_ & Hlt & _)]; [discriminate|lia]. }
  assert (Hafter : load_serial m' pi = Ret (final_serial len (prop_info.serial info))).
  { apply Update_Ret in HU as [(Hr & _)|(_ & _ & _ & HU)]; [discriminate|].
    destruct HU as (? & ? & info0 & ? & _ & Hinfo0 & _ & _ & Hafter & _).
    rewrite Hinfo in Hinfo0. injection Hinfo0 as <-.
    unfold load_serial. rewrite Hafter. reflexivity. }
  unfold ReadMutablePropertyValue in *. cbn [overtaken].
  unfold load_serial at 1. rewrite Hinfo.
  cbn [mbind outcome_bind ReadMutablePropertyValue_loop overtaken].
  rewrite Hfirst. cbn [mbind outcome_bind]. rewrite Hafter. cbn [mbind outcome_bind].
  destruct (Z.eqb_spec (prop_info.serial info) (final_serial len (prop_info.serial info)))
    as [Heq|_]; [exfalso; eapply final_serial_neq; [exact Hlt|symmetry; exact Heq]|].
  rewrite Hafter in Hread.
  cbn [mbind outcome_bind ReadMutablePropertyValue_loop] in Hread.
  destruct (copy_value sp pi m' (final_serial len (prop_info.serial info)) first)
    as [out| |]; cbn [mbind outcome_bind] in *; try discriminate Hread.
  rewrite Hafter in *. cbn [mbind outcome_bind] in *.
  rewrite Z.eqb_refl in *. exact Hread.
Qed.

Lemma reader_overtaken_by_Update_witness :
  exists v',
    strlcpy (bytes "A" ++ drop 1 blank) (bytes "BB") (2 + 1) = Ret v' /\
    ReadMutablePropertyValue demo_store
      (overtaken A_memory dirty_memory
         (memory_after (Update demo_store A_memory demo_pi (bytes "BB") 2)))
      demo_pi 2 caller_buffer
    = Ret (final_serial 2 16777216,
           take (Z.to_nat (2 + 1)) v'
           ++ drop (Z.to_nat (2 + 1)) (bytes "BB" ++ drop 2 caller_buffer)).
Proof.
  apply (reader_overtaken_by_Update demo_store A_memory dirty_memory
           (memory_after (Update demo_store A_memory demo_pi (bytes "BB") 2))
           demo_pi (bytes "BB") 2
           (prop_info.mk "a.b" 16777216 (bytes "A" ++ drop 1 blank) None)
           O caller_buffer (bytes "BB" ++ drop 2 caller_buffer)).
  - lia.
  - reflexivity.
  - reflexivity.
  - reflexivity.
  - vm_compute. discriminate.
Defined.

(** ** More of Wait *)

Lemma Wait_on_waited_word sp env futex rounds pi old_serial at_ptr p :
  waited_word sp pi = Some p ->
  Wait sp env futex rounds pi old_serial at_ptr
  = Wait_loop env futex rounds O p old_serial at_ptr.
Proof.
  unfold waited_word, Wait. destruct pi as [pi|].
  - intros [= <-]. reflexivity.
  - destruct (initialized_ sp); [|discriminate]. cbn [negb].
    destruct (GetSerialPropArea (contexts_ sp)); [|discriminate].
    intros [= <-]. reflexivity.
Qed.

Lemma timed_out_test rc :
  negb (rc =? 0) && (rc =? - ETIMEDOUT) = true <-> rc = - ETIMEDOUT.
Proof.
  unfold ETIMEDOUT. rewrite andb_true_iff, negb_true_iff, Z.eqb_neq, Z.eqb_eq. lia.
Qed.

Lemma Wait_loop_quiet env futex p old_serial at_ptr (k : nat) :
  forall rounds t,
  (forall j, (j < k)%nat -> futex (t + j)%nat <> - ETIMEDOUT) ->
  (forall j, (j < k)%nat -> load_const_atomic (env (t + j)%nat) p = Ret old_serial) ->
  Wait_loop env futex (k + rounds) t p old_serial at_ptr
  = Wait_loop env futex rounds (t + k)%nat p old_serial at_ptr.
Proof.
  induction k as [|k IH]; intros rounds t Hrc Hload.
  - replace (t + 0)%nat with t by lia. reflexivity.
  - cbn [Nat.add Wait_loop].
    destruct (negb (futex t =? 0) && (futex t =? - ETIMEDOUT)) eqn:Htest.
    + apply timed_out_test in Htest. exfalso.
      apply (Hrc O); [lia|]. replace (t + 0)%nat with t by lia. exact Htest.
    + pose proof (Hload O ltac:(lia)) as H0. replace (t + 0)%nat with t in H0 by lia.
      rewrite H0. cbn [mbind outcome_bind]. rewrite Z.eqb_refl.
      rewrite IH.
      * f_equal. lia.
      * intros j Hj. replace (S t + j)%nat with (t + S j)%nat by lia. apply Hrc. lia.
      * intros j Hj. replace (S t + j)%nat with (t + S j)%nat by lia. apply Hload. lia.
Qed.

(** The round at which the loop returns: every round before it made a
    [__futex_wait] that did not time out and found the word unchanged. *)
Lemma Wait_loop_Ret env futex p old_serial at_ptr rounds :
  forall t b w,
  Wait_loop env futex rounds t p old_serial at_ptr = Ret (b, w) ->
  exists k : nat,
    (k < rounds)%nat /\
    (forall j, (j < k)%nat ->
       futex (t + j)%nat <> - ETIMEDOUT /\
       load_const_atomic (env (t + j)%nat) p = Ret old_serial) /\
    (b = false /\ futex (t + k)%nat = - ETIMEDOUT /\ w = at_ptr
     \/
     b = true /\ futex (t + k)%nat <> - ETIMEDOUT /\
     load_const_atomic (env (t + k)%nat) p = Ret w /\ w <> old_serial).
Proof.
  induction rounds as [|rounds IH]; intros t b w H; [discriminate|].
  cbn [Wait_loop] in H.
  destruct (negb (futex t =? 0) && (futex t =? - ETIMEDOUT)) eqn:Hrc.
  - injection H as <- <-. apply timed_out_test in Hrc.
    exists O. replace (t + 0)%nat with t by lia.
    split; [lia|]. split; [intros j Hj; lia|]. left. auto.
  - assert (Hnot : futex t <> - ETIMEDOUT).
    { intros Heq. apply timed_out_test in Heq. congruence. }
    apply bind_Ret in H as (new_serial & Hload & H).
    destruct (Z.eqb_spec new_serial old_serial) as [->|Hne].
    + apply IH in H as (k & Hk & Hquiet & Hend).
      exists (S k). replace (t + S k)%nat with (S t + k)%nat by lia.
      split; [lia|]. split; [|exact Hend].
      intros [|j] Hj.
      * replace (t + 0)%nat with t by lia. auto.
      * replace (t + S j)%nat with (S t + j)%nat by lia. apply Hquiet. lia.
    + injection H as <- <-. exists O. replace (t + 0)%nat with t by lia.
      split; [lia|]. split; [intros j Hj; lia|]. right. auto.
Qed.

(** X7.  The contract of [Wait] wherever it reaches its loop (a non-null
    [pi], or a null [pi] on an initialised store with a serial area).  A call
    that returns has made [k + 1] rounds: in each of the first [k] the
    [__futex_wait] did not time out and the word read [old_serial].  It
    returns [false] only when the [__futex_wait] of its last round returned
    [-ETIMEDOUT], and then [*new_serial_ptr] is as it was; it returns [true]
    only when that wait did not time out and the load of the last round found
    a word other than [old_serial], which is then in [*new_serial_ptr]. *)
Theorem Wait_contract sp env futex rounds pi old_serial at_new_serial_ptr p b w :
  waited_word sp pi = Some p ->
  Wait sp env futex rounds pi old_serial at_new_serial_ptr = Ret (b, w) ->
  exists k : nat,
    (k < rounds)%nat /\
    (forall j, (j < k)%nat ->
       futex j <> - ETIMEDOUT /\ load_const_atomic (env j) p = Ret old_serial) /\
    (b = false -> futex k = - ETIMEDOUT /\ w = at_new_serial_ptr) /\
    (b = true -> futex k <> - ETIMEDOUT /\
                 load_const_atomic (env k) p = Ret w /\ w <> old_serial).
Proof.
  intros Hp H. rewrite (Wait_on_waited_word _ _ _ _ _ _ _ _ Hp) in H.
  apply Wait_loop_Ret in H as (k & Hk & Hquiet & Hend). cbn [Nat.add] in *.
  exists k. split; [exact Hk|]. split; [exact Hquiet|].
  destruct Hend as [(-> & Hrc & ->)|(-> & Hrc & Hload & Hne)].
  - split; [auto|discriminate].
  - split; [discriminate|auto].
Qed.

Lemma Wait_contract_witness :
  (exists k : nat,
     (k < 3)%nat /\
     (forall j, (j < k)%nat ->
        match j with O => 0 | _ => -4 end <> - ETIMEDOUT /\
        load_const_atomic (match j with O | S O => demo_memory | _ => A_memory end)
          (info_serial_of demo_pi) = Ret 0) /\
     (true = false -> match k with O => 0 | _ => -4 end = - ETIMEDOUT /\ 16777216 = 0) /\
     (true = true ->
        match k with O => 0 | _ => -4 end <> - ETIMEDOUT /\
        load_const_atomic (match k with O | S O => demo_memory | _ => A_memory end)
          (info_serial_of demo_pi) = Ret 16777216 /\
        16777216 <> 0)) /\
  (exists k : nat,
     (k < 2)%nat /\
     (forall j, (j < k)%nat ->
        match j with O => 0 | _ => - ETIMEDOUT end <> - ETIMEDOUT /\
        load_const_atomic demo_memory (info_serial_of demo_pi) = Ret 0) /\
     (false = false ->
        match k with O => 0 | _ => - ETIMEDOUT end = - ETIMEDOUT /\ 7 = 7) /\
     (false = true ->
        match k with O => 0 | _ => - ETIMEDOUT end <> - ETIMEDOUT /\
        load_const_atomic demo_memory (info_serial_of demo_pi) = Ret 7 /\
        7 <> 0)).
Proof.
  split.
  - apply (Wait_contract demo_store
             (fun t => match t with O | S O => demo_memory | _ => A_memory end)
             (fun t => match t with O => 0 | _ => -4 end)
             3 (Some demo_pi) 0 0 (info_serial_of demo_pi) true 16777216).
    + reflexivity.
    + reflexivity.
  - apply (Wait_contract demo_store (fun _ => demo_memory)
             (fun t => match t with O => 0 | _ => - ETIMEDOUT end)
             2 (Some demo_pi) 0 7 (info_serial_of demo_pi) false 7).
    + reflexivity.
    + reflexivity.
Defined.

Lemma Wait_first_change sp env futex rounds pi old_serial
    at_new_serial_ptr p (k : nat) new_serial :
  waited_word sp pi = Some p ->
  (forall t, (t <= k)%nat -> futex t <> - ETIMEDOUT) ->
  (forall t, (t < k)%nat -> load_const_atomic (env t) p = Ret old_serial) ->
  load_const_atomic (env k) p = Ret new_serial ->
  new_serial <> old_serial ->
  Wait sp env futex (k + S rounds) pi old_serial at_new_serial_ptr
  = Ret (true, new_serial).
Proof.
  intros Hp Hrc Hquiet Hload Hne.
  rewrite (Wait_on_waited_word _ _ _ _ _ _ _ _ Hp).
  rewrite Wait_loop_quiet.
  - cbn [Nat.add Wait_loop].
    destruct (negb (futex k =? 0) && (futex k =? - ETIMEDOUT)) eqn:Htest.
    + apply timed_out_test in Htest. exfalso. apply (Hrc k); [lia|exact Htest].
    + rewrite Hload. cbn [mbind outcome_bind].
      destruct (Z.eqb_spec new_serial old_serial); [contradiction|reflexivity].
  - intros j Hj. apply Hrc. lia.
  - intros j Hj. apply Hquiet. exact Hj.
Qed.

(** X8.  Wake-ups without a change are absorbed: while the [__futex_wait]s do
    not time out and the word still reads [old_serial], [Wait] goes round
    again, whatever the [__futex_wait]s returned; at the first round that
    finds another word it returns [true] with that word. *)
Theorem Wait_returns_first_change sp env futex rounds pi old_serial
    at_new_serial_ptr p (k : nat) new_serial :
  waited_word sp pi = Some p ->
  (forall t, (t <= k)%nat -> futex t <> - ETIMEDOUT) ->
  (forall t, (t < k)%nat -> load_const_atomic (env t) p = Ret old_serial) ->
  load_const_atomic (env k) p = Ret new_serial ->
  new_serial <> old_serial ->
  Wait sp env futex (k + S rounds) pi old_serial at_new_serial_ptr
  = Ret (true, new_serial).
Proof. apply Wait_first_change. Qed.

Lemma Wait_returns_first_change_witness :
  Wait demo_store
    (fun t => match t with O | S O => demo_memory | _ => A_memory end)
    (fun t => match t with O => 0 | _ => -4 end)
    3 (Some demo_pi) 0 0
  = Ret (true, 16777216).
Proof.
  apply (Wait_returns_first_change demo_store
           (fun t => match t with O | S O => demo_memory | _ => A_memory end)
           (fun t => match t with O => 0 | _ => -4 end)
           O (Some demo_pi) 0 0 (info_serial_of demo_pi) 2 16777216).
  - reflexivity.
  - intros [|t] _; vm_compute; discriminate.
  - intros [|[|t]] Ht; [reflexivity|reflexivity|lia].
  - reflexivity.
  - discriminate.
Defined.

(** X9.  A time-out wins over a change: at the first round whose
    [__futex_wait] returns [-ETIMEDOUT], [Wait] returns [false] and leaves
    [*new_serial_ptr] alone without loading the word again, so also when the
    word has changed by then. *)
Theorem Wait_times_out sp env futex rounds pi old_serial at_new_serial_ptr p (k : nat) :
  waited_word sp pi = Some p ->
  (forall t, (t < k)%nat -> futex t <> - ETIMEDOUT) ->
  (forall t, (t < k)%nat -> load_const_atomic (env t) p = Ret old_serial) ->
  futex k = - ETIMEDOUT ->
  Wait sp env futex (k + S rounds) pi old_serial at_new_serial_ptr
  = Ret (false, at_new_serial_ptr).
Proof.
  intros Hp Hrc Hquiet Hout.
  rewrite (Wait_on_waited_word _ _ _ _ _ _ _ _ Hp).
  rewrite Wait_loop_quiet.
  - cbn [Nat.add Wait_loop].
    rewrite (proj2 (timed_out_test (futex k)) Hout). reflexivity.
  - intros j Hj. apply Hrc. exact Hj.
  - intros j Hj. apply Hquiet. exact Hj.
Qed.

Lemma Wait_times_out_witness :
  load_const_atomic A_memory (info_serial_of demo_pi) = Ret 16777216 /\
  Wait demo_store (fun _ => A_memory) (fun _ => - ETIMEDOUT) 1 (Some demo_pi) 0 7
  = Ret (false, 7).
Proof.
  split; [reflexivity|].
  apply (Wait_times_out demo_store (fun _ => A_memory) (fun _ => - ETIMEDOUT)
           O (Some demo_pi) 0 7 (info_serial_of demo_pi) O).
  - reflexivity.
  - intros t Ht. lia.
  - intros t Ht. lia.
  - reflexivity.
Defined.

(** ** Writers wake waiters *)

(** X10.  Every successful [Update] changes the serial word of the record
    (also when it writes the value that was there), so a [Wait(pi, old)]
    entered with the serial from before the [Update] returns [true] with the
    serial the [Update] stored, unless its first [__futex_wait] times out. *)
Theorem Wait_sees_Update sp m pi v len m' info futex rounds at_new_serial_ptr :
  0 <= len ->
  load_info m pi = Ret info ->
  Update sp m pi v len = Ret (0, m') ->
  futex O <> - ETIMEDOUT ->
  load_serial m' pi = Ret (final_serial len (prop_info.serial info)) /\
  final_serial len (prop_info.serial info) <> prop_info.serial info /\
  Wait sp (fun _ => m') futex (S rounds) (Some pi) (prop_info.serial info)
       at_new_serial_ptr
  = Ret (true, final_serial len (prop_info.serial info)).
Proof.
  intros Hnn Hinfo HU Hrc.
  assert (Hlt : 0 <= len < PROP_VALUE_MAX).
  { apply Update_Ret in HU as [(Hr & _)|(_ & Hlt & _)]; [discriminate|lia]. }
  assert (Hafter : load_serial m' pi = Ret (final_serial len (prop_info.serial info))).
  { apply Update_Ret in HU as [(Hr & _)|(_ & _ & _ & HU)]; [discriminate|].
    destruct HU as (? & ? & info0 & ? & _ & Hinfo0 & _ & _ & Hafter & _).
    rewrite Hinfo in Hinfo0. injection Hinfo0 as <-.
    unfold load_serial. rewrite Hafter. reflexivity. }
  pose proof (final_serial_neq len (prop_info.serial info) Hlt) as Hne.
  split; [exact Hafter|]. split; [exact Hne|].
  apply (Wait_first_change sp (fun _ => m') futex rounds (Some pi)
           (prop_info.serial info) at_new_serial_ptr (info_serial_of pi) O).
  - reflexivity.
  - intros t Ht. replace t with O by lia. exact Hrc.
  - intros t Ht. lia.
  - exact Hafter.
  - exact Hne.
Qed.

Lemma Wait_sees_Update_witness :
  load_serial (memory_after (Update demo_store A_memory demo_pi (bytes "A") 1)) demo_pi
  = Ret (final_serial 1 16777216) /\
  final_serial 1 16777216 <> 16777216 /\
  Wait demo_store
    (fun _ => memory_after (Update demo_store A_memory demo_pi (bytes "A") 1))
    (fun _ => 0) 1 (Some demo_pi) 16777216 0
  = Ret (true, final_serial 1 16777216).
Proof.
  apply (Wait_sees_Update demo_store A_memory demo_pi (bytes "A") 1
           (memory_after (Update demo_store A_memory demo_pi (bytes "A") 1))
           (prop_info.mk "a.b" 16777216 (bytes "A" ++ drop 1 blank) None)
           (fun _ => 0) O 0).
  - lia.
  - reflexivity.
  - reflexivity.
  - vm_compute. discriminate.
Defined.

Lemma run_op_success_initialized pa_add sp m op m' :
  run_op pa_add sp m op = Ret (0, m') -> initialized_ sp = true.
Proof.
  destruct op as [name namelen value valuelen|pi value len]; cbn [run_op].
  - unfold Add. intros [= H].
    destruct (_ && _); [discriminate H|].
    destruct (namelen <? 1); [discriminate H|].
    destruct (initialized_ sp); [reflexivity|discriminate H].
  - intros H. apply Update_Ret in H as [(Hr & _)|(_ & _ & Hinit & _)];
      [discriminate|exact Hinit].
Qed.

Lemma wrap32_succ_neq z : 0 <= z < 2 ^ 32 -> wrap32 (z + 1) <> z.
Proof.
  intros Hz. unfold wrap32.
  destruct (Z.eq_dec z (2 ^ 32 - 1)) as [->|Hne].
  - vm_compute. discriminate.
  - rewrite Z.mod_small by lia. lia.
Qed.

(** X11.  Every [Add] and [Update] that returns 0 is seen by the waiters on
    the store as a whole: [AreaSerial()] afterwards is one more (modulo 2^32)
    than before, and a [WaitAny] entered with the [AreaSerial()] from before
    returns the one from after, unless its first [__futex_wait] times out. *)
Theorem WaitAny_sees_writer pa_add sp m op m' futex rounds junk :
  run_op pa_add sp m op = Ret (0, m') ->
  0 <= AreaSerial sp m < 2 ^ 32 ->
  futex O <> - ETIMEDOUT ->
  AreaSerial sp m' = wrap32 (AreaSerial sp m + 1) /\
  WaitAny sp (fun _ => m') futex (S rounds) (AreaSerial sp m) junk
  = Ret (AreaSerial sp m').
Proof.
  intros Hop Hrange Hrc.
  pose proof (run_op_success_initialized _ _ _ _ _ Hop) as Hinit.
  apply run_op_area_serial in Hop as [(Hr & _)|(_ & s & Hs & Hbump & _)];
    [discriminate|].
  unfold AreaSerial in *. rewrite Hinit, Hs in *. cbn [negb] in *.
  split; [exact Hbump|].
  unfold WaitAny.
  change (S rounds) with (0 + S rounds)%nat.
  rewrite (Wait_first_change sp (fun _ => m') futex rounds None
             (prop_area.serial (m s)) junk (area_serial_of s) O
             (prop_area.serial (m' s))).
  - reflexivity.
  - unfold waited_word. rewrite Hinit, Hs. reflexivity.
  - intros t Ht. replace t with O by lia. exact Hrc.
  - intros t Ht. lia.
  - reflexivity.
  - rewrite Hbump. apply wrap32_succ_neq, Hrange.
Qed.

Lemma WaitAny_sees_writer_witness :
  AreaSerial demo_store
    (memory_after (run_op slab_add demo_store demo_memory
                     (op_Add "x" 1 (bytes "1") 1)))
  = wrap32 (AreaSerial demo_store demo_memory + 1) /\
  WaitAny demo_store
    (fun _ => memory_after (run_op slab_add demo_store demo_memory
                              (op_Add "x" 1 (bytes "1") 1)))
    (fun _ => 0) 1 (AreaSerial demo_store demo_memory) 7
  = Ret (AreaSerial demo_store
           (memory_after (run_op slab_add demo_store demo_memory
                            (op_Add "x" 1 (bytes "1") 1)))).
Proof.
  apply (WaitAny_sees_writer slab_add demo_store demo_memory
           (op_Add "x" 1 (bytes "1") 1)
           (memory_after (run_op slab_add demo_store demo_memory
                            (op_Add "x" 1 (bytes "1") 1)))
           (fun _ => 0) O 7).
  - reflexivity.
  - vm_compute. split; [discriminate|reflexivity].
  - vm_compute. discriminate.
Defined.

(** ** FindNth *)

Lemma find_nth_fold (visited : list prop_info_ptr) :
  forall n c r,
  0 <= c -> c + Z.of_nat (length visited) <= 2 ^ 32 ->
  result (foldl (fun self pi => find_nth_fn pi self) (mk_find_nth n c r) visited)
  = if (c <=? n) && (n <? c + Z.of_nat (length visited))
    then visited !! Z.to_nat (n - c)
    else r.
Proof.
  induction visited as [|pi visited IH]; intros n c r Hc Hlen.
  - cbn [foldl length result]. destruct (Z.leb_spec c n); cbn [andb]; [|reflexivity].
    destruct (Z.ltb_spec n (c + Z.of_nat 0)); [lia|reflexivity].
  - cbn [foldl]. unfold find_nth_fn at 2. cbn [current sought result].
    replace (Z.of_nat (length (pi :: visited))) with (Z.of_nat (length visited) + 1)
      in * by (cbn [length]; lia).
    destruct visited as [|pi2 rest].
    + cbn [foldl length] in *.
      destruct (Z.eqb_spec c n) as [Heq|Hne]; cbn [result];
        destruct (Z.leb_spec c n); destruct (Z.ltb_spec n (c + (Z.of_nat 0 + 1)));
        cbn [andb]; try lia; try reflexivity.
      replace (n - c) with 0 by lia. reflexivity.
    + set (visited := pi2 :: rest) in *.
      assert (Hpos : 0 < Z.of_nat (length visited)) by (unfold visited; cbn [length]; lia).
      rewrite wrap32_small by lia.
      destruct (Z.eqb_spec c n) as [Heq|Hne]; rewrite IH by lia;
        destruct (Z.leb_spec (c + 1) n); destruct (Z.leb_spec c n);
        destruct (Z.ltb_spec n (c + 1 + Z.of_nat (length visited)));
        destruct (Z.ltb_spec n (c + (Z.of_nat (length visited) + 1)));
        cbn [andb]; try lia; try reflexivity.
      * replace (n - c) with 0 by lia. reflexivity.
      * replace (Z.to_nat (n - c)) with (S (Z.to_nat (n - (c + 1)))) by lia.
        reflexivity.
Qed.

(** X12.  [FindNth(n)] on an initialised store is the record number [n]
    (from 0) of those [Contexts::ForEach] visits, and null when there are not
    that many: [FindNth(0)], [FindNth(1)], ... name every visited record once,
    in order, and [FindNth(count)] is null. *)
Theorem FindNth_nth (visited : list prop_info_ptr) sp n :
  initialized_ sp = true ->
  0 <= n < 2 ^ 32 ->
  Z.of_nat (length visited) <= 2 ^ 32 ->
  FindNth visited sp n = visited !! Z.to_nat n.
Proof.
  intros Hinit Hn Hlen. unfold FindNth, Foreach. rewrite Hinit. cbn [negb snd].
  rewrite wrap32_small by exact Hn.
  rewrite find_nth_fold by lia.
  rewrite Z.sub_0_r, Z.add_0_l.
  destruct (Z.leb_spec 0 n); [|lia]. cbn [andb].
  destruct (Z.ltb_spec n (Z.of_nat (length visited))); [reflexivity|].
  symmetry. apply lookup_ge_None_2. lia.
Qed.

Lemma FindNth_nth_witness :
  FindNth demo_visited demo_store 2 = Some (mk_ptr 1 0) /\
  FindNth demo_visited demo_store 4 = None.
Proof.
  split.
  - apply (FindNth_nth demo_visited demo_store 2).
    + reflexivity.
    + lia.
    + vm_compute. discriminate.
  - apply (FindNth_nth demo_visited demo_store 4).
    + reflexivity.
    + lia.
    + vm_compute. discriminate.
Defined.

(** ** Get *)

(** X13.  [Update], then [Get] by name: when [Find] leads from the name to
    the record that was updated, [Get] returns [len] and finds the first
    [len] bytes of [v] and a NUL ([strlen(v) >= len]). *)
Theorem Update_Get_round_trip pa_find sp m pi v len m' name rounds value_buf :
  0 <= len <= Z.of_nat (strlen v) ->
  Update sp m pi v len = Ret (0, m') ->
  Find pa_find sp m' name = Some pi ->
  PROP_VALUE_MAX <= Z.of_nat (length value_buf) ->
  Get pa_find sp (fun _ => m') (S rounds) name value_buf
  = Ret (len, take (Z.to_nat len) v ++ NUL :: drop (S (Z.to_nat len)) value_buf).
Proof.
  intros Hlen HU HF Hbuf.
  assert (Hinfo : exists info, load_info m pi = Ret info).
  { apply Update_Ret in HU as [(Hr & _)|(_ & _ & _ & ? & ? & info & ? & _ & H & _)];
      [discriminate|eauto]. }
  destruct Hinfo as (info & Hinfo).
  destruct (Read_after_Update sp m pi v len m' info rounds None value_buf
              ltac:(lia) Hinfo HU Hbuf) as (name_buf' & v' & Hv' & _ & _ & HR);
    [discriminate|].
  unfold Get. rewrite HF.
  change (fun t : nat => (fun _ : nat => m') (S t)) with (fun _ : nat => m').
  rewrite HR. cbn [mbind outcome_bind]. do 2 f_equal.
  apply strlcpy_Ret in Hv' as (_ & ->); [|lia].
  replace (Nat.min (strlen v) (Z.to_nat (len + 1 - 1))) with (Z.to_nat len) by lia.
  replace (Z.to_nat (len + 1)) with (S (Z.to_nat len)) by lia.
  pose proof (strlen_le_length v).
  rewrite take_string_NUL by lia. rewrite <- app_assoc. reflexivity.
Qed.

Lemma Update_Get_round_trip_witness :
  Get slab_find demo_store
    (fun _ => memory_after (Update demo_store demo_memory demo_pi (bytes "hello") 5))
    1 "a.b" caller_buffer
  = Ret (5, bytes "hello" ++ NUL :: drop 6 caller_buffer).
Proof.
  apply (Update_Get_round_trip slab_find demo_store demo_memory demo_pi (bytes "hello") 5
           (memory_after (Update demo_store demo_memory demo_pi (bytes "hello") 5))
           "a.b" O caller_buffer).
  - vm_compute. split; discriminate.
  - reflexivity.
  - reflexivity.
  - vm_compute. discriminate.
Defined.

(** X14.  [Get] on a name it cannot find (the store is not initialised, the
    router has no area for the name, or the area has no such record) returns
    0 and makes [value] the empty string, touching only its first byte; it
    reads no record, so it needs no round of the reader. *)
Theorem Get_missing pa_find sp env rounds name c rest :
  initialized_ sp = false \/
  GetPropAreaForName (contexts_ sp) name = None \/
  (exists pa, GetPropAreaForName (contexts_ sp) name = Some pa /\
              pa_find (prop_area.props (env O pa)) name = None) ->
  Find pa_find sp (env O) name = None /\
  Get pa_find sp env rounds name (c :: rest) = Ret (0, NUL :: rest) /\
  strlen (NUL :: rest) = O.
Proof.
  intros H.
  assert (HF : Find pa_find sp (env O) name = None).
  { unfold Find. destruct H as [->|[H|(pa & Hpa & H)]]; [reflexivity| |].
    - destruct (negb (initialized_ sp)); [reflexivity|]. rewrite H. reflexivity.
    - destruct (negb (initialized_ sp)); [reflexivity|]. rewrite Hpa, H. reflexivity. }
  split; [exact HF|]. unfold Get. rewrite HF. split; reflexivity.
Qed.

Lemma Get_missing_witness :
  Find slab_find demo_store demo_memory "net.dns1" = None /\
  Get slab_find demo_store (fun _ => demo_memory) 0 "net.dns1" caller_buffer
  = Ret (0, NUL :: drop 1 caller_buffer) /\
  strlen (NUL :: drop 1 caller_buffer) = O.
Proof.
  apply (Get_missing slab_find demo_store (fun _ => demo_memory) O "net.dns1"
           "*"%byte (drop 1 caller_buffer)).
  right. right. exists O. split; reflexivity.
Defined.

(** ** Init and AreaInit *)

(** X15.  [Init] returns exactly whether the store is initialised afterwards;
    and once it has returned [true], every further [Init], with whatever file
    name (even one that is too long) and whatever is on the file system then,
    returns [true] and does nothing but [ResetAccess()]: no [Initialize], the
    file name and the routing object stay. *)
Theorem Init_idempotent PROP_FILENAME_MAX is_dir property_info_readable Initialize
    ResetAccess is_dir' property_info_readable' Initialize'
    self filename b self1 filename' :
  Init PROP_FILENAME_MAX is_dir property_info_readable Initialize ResetAccess
       self filename = (b, self1) ->
  initialized_ (this self1) = b /\
  (b = true ->
   Init PROP_FILENAME_MAX is_dir' property_info_readable' Initialize' ResetAccess
        self1 filename'
   = (true, mk_instance (mk_store true (ResetAccess (contexts_ (this self1))))
                        (property_filename_ self1))).
Proof.
  unfold Init at 1.
  destruct (initialized_ (this self)) eqn:Hinit.
  - intros [= <- <-]. cbn [this initialized_]. split; [reflexivity|].
    intros _. unfold Init. cbn [this initialized_ contexts_ property_filename_].
    reflexivity.
  - destruct (PROP_FILENAME_MAX <=? Z.of_nat (String.length filename)).
    + intros [= <- <-]. split; [exact Hinit|discriminate].
    + destruct (Initialize _ false filename) as [[ok c] f].
      destruct ok; cbn [negb]; intros [= <- <-]; cbn [this initialized_].
      * split; [reflexivity|]. intros _. reflexivity.
      * split; [reflexivity|discriminate].
Qed.

Lemma Init_idempotent_witness :
  Init 1024 (fun _ => false) false (fun _ _ _ => (false, demo_contexts, false))
       (fun c => c)
       (mk_instance demo_store "/dev/__properties__") "/nowhere"
  = (true, mk_instance demo_store "/dev/__properties__").
Proof.
  apply (proj2 (Init_idempotent 1024 demo_is_dir true demo_Initialize (fun c => c)
                  (fun _ => false) false (fun _ _ _ => (false, demo_contexts, false))
                  blank_instance "/dev/__properties__" true
                  (mk_instance demo_store "/dev/__properties__") "/nowhere"
                  eq_refl)).
  reflexivity.
Defined.

(** X16.  [AreaInit] does not look at [initialized_] and never clears it: on
    a store that is initialised already, an [AreaInit] whose [Initialize]
    fails returns [false] and leaves the store initialised, with the routing
    object and the file name of the failed attempt.  A file name that is too
    long fails before anything is touched. *)
Theorem AreaInit_on_initialised PROP_FILENAME_MAX Initialize self filename
    at_fsetxattr_failed b self' failed :
  AreaInit PROP_FILENAME_MAX Initialize self filename at_fsetxattr_failed
  = (b, self', failed) ->
  initialized_ (this self') = initialized_ (this self) || b /\
  (PROP_FILENAME_MAX <= Z.of_nat (String.length filename) ->
   b = false /\ self' = self /\ failed = at_fsetxattr_failed) /\
  (Z.of_nat (String.length filename) < PROP_FILENAME_MAX ->
   property_filename_ self' = filename /\
   (b, contexts_ (this self'), failed) = Initialize ContextsSerialized true filename).
Proof.
  unfold AreaInit.
  destruct (Z.leb_spec PROP_FILENAME_MAX (Z.of_nat (String.length filename))).
  - intros [= <- <- <-]. rewrite orb_false_r.
    split; [reflexivity|]. split; [auto|]. intros Hshort. exfalso. lia.
  - destruct (Initialize ContextsSerialized true filename) as [[ok c] f].
    destruct ok; cbn [negb]; intros [= <- <- <-];
      cbn [this initialized_ contexts_ property_filename_];
      rewrite ?orb_true_r, ?orb_false_r;
      (split; [reflexivity|]); (split; [intros Hlong; exfalso; lia|]);
      intros _; split; reflexivity.
Qed.

Lemma AreaInit_on_initialised_witness :
  AreaInit 1024 demo_Initialize (mk_instance demo_store "/dev/__properties__")
           "/nowhere" true
  = (false, mk_instance (mk_store true demo_contexts) "/nowhere", false) /\
  initialized_ (this (mk_instance (mk_store true demo_contexts) "/nowhere"))
  = initialized_ (this (mk_instance demo_store "/dev/__properties__")) || false.
Proof.
  split; [reflexivity|].
  apply (proj1 (AreaInit_on_initialised 1024 demo_Initialize
                  (mk_instance demo_store "/dev/__properties__") "/nowhere" true
                  false (mk_instance (mk_store true demo_contexts) "/nowhere") false
                  eq_refl)).
Defined.

(** ** A store that is not initialised *)

(** X17.  After an [Init] that returned [false] the store does nothing,
    whatever the failed attempt left in [contexts_]: [Add] and [Update]
    return -1 with the mapping as it was, [Find] and [FindNth] are null,
    [Get] returns 0 with the empty string, [AreaSerial] is [0xFFFFFFFF], and
    [Foreach] returns -1 without calling the callback. *)
Theorem failed_Init_leaves_store_inert PROP_FILENAME_MAX is_dir property_info_readable
    Initialize ResetAccess self filename self'
    pa_add pa_find (visited : list prop_info_ptr) (m : memory) env :
  Init PROP_FILENAME_MAX is_dir property_info_readable Initialize ResetAccess
       self filename = (false, self') ->
  (forall name namelen value valuelen,
     Add pa_add (this self') m name namelen value valuelen = (-1, m)) /\
  (forall pi value len, Update (this self') m pi value len = Ret (-1, m)) /\
  (forall name, Find pa_find (this self') m name = None) /\
  (forall rounds name c rest,
     Get pa_find (this self') env rounds name (c :: rest) = Ret (0, NUL :: rest)) /\
  (forall n, FindNth visited (this self') n = None) /\
  (forall (S : Type) (propfn : prop_info_ptr -> S -> S) (cookie : S),
     Foreach visited (this self') propfn cookie = (-1, cookie)) /\
  AreaSerial (this self') m = 4294967295.
Proof.
  intros HI.
  assert (Hinit : initialized_ (this self') = false).
  { unfold Init in HI.
    destruct (initialized_ (this self)) eqn:Hinit; [discriminate HI|].
    destruct (PROP_FILENAME_MAX <=? Z.of_nat (String.length filename)).
    - injection HI as <-. exact Hinit.
    - destruct (Initialize _ false filename) as [[ok c] f].
      destruct ok; cbn [negb] in HI; [discriminate HI|].
      injection HI as <-. reflexivity. }
  repeat split.
  - intros name namelen value valuelen. unfold Add. rewrite Hinit.
    destruct (_ && _); [reflexivity|]. destruct (namelen <? 1); reflexivity.
  - intros pi value len. unfold Update. rewrite Hinit.
    destruct (PROP_VALUE_MAX <=? len); reflexivity.
  - intros name. unfold Find. rewrite Hinit. reflexivity.
  - intros rounds name c rest. unfold Get, Find. rewrite Hinit. reflexivity.
  - intros n. unfold FindNth, Foreach. rewrite Hinit. reflexivity.
  - intros S propfn cookie. unfold Foreach. rewrite Hinit. reflexivity.
  - unfold AreaSerial. rewrite Hinit. reflexivity.
Qed.

Lemma failed_Init_leaves_store_inert_witness :
  Update (mk_store false demo_contexts) demo_memory demo_pi (bytes "hello") 5
  = Ret (-1, demo_memory).
Proof.
  apply (proj1 (proj2 (failed_Init_leaves_store_inert
                         1024 demo_is_dir true demo_Initialize (fun c => c)
                         blank_instance "/nowhere"
                         (mk_instance (mk_store false demo_contexts) "/nowhere")
                         slab_add slab_find demo_visited demo_memory
                         (fun _ => demo_memory) eq_refl))).
Defined.

(** ** What Add touches *)

(** X18.  [Add] touches nothing but the records of the area the router gives
    for the name and the area-serial of the serial area: every dirty-backup
    buffer and the records of every other area are as before, and when [Add]
    fails before it reaches [prop_area::add] the whole mapping is. *)
Theorem Add_footprint pa_add sp m name namelen value valuelen r m' :
  Add pa_add sp m name namelen value valuelen = (r, m') ->
  (forall a, prop_area.dirty_backup_area (m' a) = prop_area.dirty_backup_area (m a)) /\
  (forall a, GetPropAreaForName (contexts_ sp) name <> Some a ->
             prop_area.props (m' a) = prop_area.props (m a)) /\
  (forall pa, GetPropAreaForName (contexts_ sp) name = Some pa ->
              r = 0 ->
              pa_add (prop_area.props (m pa)) name namelen value valuelen
              = (true, prop_area.props (m' pa))) /\
  (namelen < 1 \/ initialized_ sp = false \/
   GetSerialPropArea (contexts_ sp) = None \/
   GetPropAreaForName (contexts_ sp) name = None \/
   (PROP_VALUE_MAX <= valuelen /\ is_read_only name = false) ->
   r = -1 /\ m' = m).
Proof.
  unfold Add.
  destruct ((PROP_VALUE_MAX <=? valuelen) && negb (is_read_only name)) eqn:Hcap.
  { intros [= <- <-]. repeat split; intros; try reflexivity. discriminate. }
  destruct (Z.ltb_spec namelen 1) as [Hname|Hname].
  { intros [= <- <-]. repeat split; intros; try reflexivity. discriminate. }
  destruct (initialized_ sp) eqn:Hinit; cbn [negb].
  2: { intros [= <- <-]. repeat split; intros; try reflexivity. discriminate. }
  destruct (GetSerialPropArea (contexts_ sp)) as [serial_pa|] eqn:Hspa.
  2: { intros [= <- <-]. repeat split; intros; try reflexivity. discriminate. }
  destruct (GetPropAreaForName (contexts_ sp) name) as [pa|] eqn:Hpa.
  2: { intros [= <- <-]. repeat split; intros; try reflexivity. discriminate. }
  destruct (pa_add (prop_area.props (m pa)) name namelen value valuelen) as [ret ps]
    eqn:Hadd.
  assert (Hnot : ~ (namelen < 1 \/ true = false \/ Some serial_pa = None \/
                    Some pa = None \/
                    PROP_VALUE_MAX <= valuelen /\ is_read_only name = false)).
  { intros [?|[?|[?|[?|[Hv Hro]]]]]; try discriminate; try lia.
    apply Z.leb_le in Hv. rewrite Hv, Hro in Hcap. discriminate. }
  destruct ret; cbn [negb]; intros [= <- <-];
    (split; [|split; [|split; [|intros Hpre; contradiction]]]).
  - intros a. rewrite !fn_insert_apply.
    repeat case_decide; subst; rewrite ?fn_insert_apply, ?decide_True by reflexivity;
      reflexivity.
  - intros a Ha. rewrite !fn_insert_apply.
    assert (pa <> a) by congruence.
    repeat case_decide; subst; rewrite ?fn_insert_apply, ?decide_False by congruence;
      try congruence; reflexivity.
  - intros pa' [= <-] _. rewrite Hadd. f_equal. rewrite !fn_insert_apply.
    case_decide; subst; rewrite ?fn_insert_apply, ?decide_True by reflexivity;
      reflexivity.
  - intros a. rewrite !fn_insert_apply. case_decide; subst; reflexivity.
  - intros a Ha. rewrite !fn_insert_apply.
    assert (pa <> a) by congruence. rewrite decide_False by assumption. reflexivity.
  - intros pa' _ Hr. discriminate Hr.
Qed.

Lemma Add_footprint_witness :
  prop_area.props
    (snd (Add slab_add demo_store demo_memory "x" 1 (bytes "1") 1) O)
  = prop_area.props (demo_memory O)
    ++ [prop_info.mk "x" 16777216 (bytes "1" ++ drop 1 blank) None] /\
  prop_area.dirty_backup_area
    (snd (Add slab_add demo_store demo_memory "x" 1 (bytes "1") 1) O)
  = prop_area.dirty_backup_area (demo_memory O).
Proof.
  destruct (Add_footprint slab_add demo_store demo_memory "x" 1 (bytes "1") 1
              0 (snd (Add slab_add demo_store demo_memory "x" 1 (bytes "1") 1))
              eq_refl) as (Hbackup & _ & Hadd & _).
  split.
  - reflexivity.
  - apply Hbackup.
Defined.

(** ** More of ReadCallback and Read *)

(** X19.  For a name that begins with [ro.], [ReadCallback] does not run the
    reader: whatever the uid, the serial word, the router and the writer are
    doing, [callback2] gets the long value when there is one and the inline
    value otherwise, with the serial as loaded, and none of the substituted
    names can apply. *)
Theorem ReadCallback_read_only sp env rounds getuid pi value_buf info :
  begins_with_ro (prop_info.name info) ->
  0 <= getuid < 2 ^ 32 ->
  load_info (env O) pi = Ret info ->
  ReadCallback sp env rounds getuid pi value_buf
  = Ret (mk_call (prop_info.name info)
           (match prop_info.long_value info with
            | Some long => long
            | None => prop_info.value info
            end)
           (prop_info.serial info)).
Proof.
  intros Hro Hrange Hinfo. unfold ReadCallback. rewrite Hinfo.
  cbn [mbind outcome_bind].
  rewrite (proj2 (is_read_only_begins_with_ro _) Hro).
  assert (Hcall : forall stored,
             callback getuid (prop_info.name info) stored (prop_info.serial info)
             = mk_call (prop_info.name info) stored (prop_info.serial info)).
  { intros stored.
    destruct (callback_value getuid (prop_info.name info) stored
                (prop_info.serial info) Hrange) as (v & Hcall & _ & _ & _ & Hv).
    rewrite Hcall, Hv; [reflexivity|].
    right. destruct Hro as [rest Hrest]. rewrite Hrest. intros Hin.
    unfold usb_names in Hin. rewrite !elem_of_cons, elem_of_nil in Hin.
    cbn [String.append] in Hin. intuition discriminate. }
  destruct (prop_info.long_value info); rewrite Hcall; reflexivity.
Qed.

Lemma ReadCallback_read_only_witness :
  ReadCallback denied_store (fun _ => adbd_memory) 0 10001 demo_ro_pi caller_buffer
  = Ret (mk_call "ro.build.id" (bytes "ABC" ++ drop 3 blank) 50331648).
Proof.
  apply (ReadCallback_read_only denied_store (fun _ => adbd_memory) O 10001 demo_ro_pi
           caller_buffer
           (prop_info.mk "ro.build.id" 50331648 (bytes "ABC" ++ drop 3 blank) None)).
  - exists "build.id"%string. reflexivity.
  - lia.
  - reflexivity.
Defined.

(** X20.  For any other name and a uid outside the two ranges, [ReadCallback]
    reports what [Read] reports on the same accesses: the value is the buffer
    [Read] fills, and the length in the serial it passes is the result of
    [Read]. *)
Theorem ReadCallback_agrees_with_Read sp env rounds getuid pi value_buf info r out :
  0 <= getuid < 2 ^ 32 -> ~ uid_in_range getuid ->
  load_info (env O) pi = Ret info ->
  is_read_only (prop_info.name info) = false ->
  Read sp env pi rounds None value_buf = Ret (r, None, out) ->
  exists serial,
    ReadCallback sp env rounds getuid pi value_buf
    = Ret (mk_call (prop_info.name info) out serial) /\
    SERIAL_VALUE_LEN serial = r.
Proof.
  intros Hrange Hout Hinfo Hro HR. unfold Read in HR.
  apply bind_Ret in HR as ([serial v] & Hread & HR).
  cbn [mbind outcome_bind] in HR. injection HR as <- <-.
  exists serial. split; [|reflexivity].
  unfold ReadCallback. rewrite Hinfo. cbn [mbind outcome_bind].
  rewrite Hro, Hread. cbn [mbind outcome_bind].
  destruct (callback_value getuid (prop_info.name info) v serial Hrange)
    as (cv & Hcall & _ & _ & _ & Hv).
  rewrite Hcall, Hv by auto. reflexivity.
Qed.

Lemma ReadCallback_agrees_with_Read_witness :
  exists serial,
    ReadCallback demo_store (fun _ => adbd_memory) 1 0 demo_pi caller_buffer
    = Ret (mk_call "init.svc.adbd" (bytes "running" ++ NUL :: drop 8 caller_buffer)
             serial) /\
    SERIAL_VALUE_LEN serial = 7.
Proof.
  apply (ReadCallback_agrees_with_Read demo_store (fun _ => adbd_memory) 1 0 demo_pi
           caller_buffer
           (prop_info.mk "init.svc.adbd" 117440512 (bytes "running" ++ drop 7 blank) None)
           7 (bytes "running" ++ NUL :: drop 8 caller_buffer)).
  - lia.
  - unfold uid_in_range. lia.
  - reflexivity.
  - reflexivity.
  - reflexivity.
Defined.

(** X21.  The name [Read] hands back: at most [PROP_NAME_MAX - 1] bytes of the
    name of the record and a NUL, in a buffer that is otherwise as it was; a
    longer name is cut.  Asking for the name changes neither the result nor
    the value. *)
Theorem Read_name_buffer sp env pi rounds buf value_buf info serial out :
  load_info (env O) pi = Ret info ->
  PROP_NAME_MAX <= Z.of_nat (length buf) ->
  ReadMutablePropertyValue sp env pi rounds value_buf = Ret (serial, out) ->
  let name := String.list_byte_of_string (prop_info.name info) in
  let k := Nat.min (strlen name) 31 in
  Read sp env pi rounds None value_buf = Ret (SERIAL_VALUE_LEN serial, None, out) /\
  Read sp env pi rounds (Some buf) value_buf
  = Ret (SERIAL_VALUE_LEN serial, Some (take k name ++ NUL :: drop (S k) buf), out) /\
  length (take k name ++ NUL :: drop (S k) buf) = length buf /\
  drop 32 (take k name ++ NUL :: drop (S k) buf) = drop 32 buf.
Proof.
  intros Hinfo Hbuf Hread name k.
  assert (Hk : (k <= 31)%nat) by (unfold k; lia).
  assert (Hkname : length (take k name) = k).
  { apply length_take_le. pose proof (strlen_le_length name). unfold k. lia. }
  unfold PROP_NAME_MAX in Hbuf.
  split; [|split; [|split]].
  - unfold Read. rewrite Hread. reflexivity.
  - unfold Read. rewrite Hread. cbn [mbind outcome_bind]. rewrite Hinfo.
    cbn [mbind outcome_bind]. unfold strlcpy, PROP_NAME_MAX.
    destruct (Z.leb_spec 32 (Z.of_nat (length buf))) as [_|?]; [|lia].
    cbn [Z.eqb mbind outcome_bind]. reflexivity.
  - rewrite length_app. cbn [length]. rewrite Hkname, length_drop. lia.
  - rewrite drop_app, Hkname.
    rewrite drop_ge by (rewrite Hkname; lia). cbn [app].
    replace (32 - k)%nat with (S (31 - k)) by lia. cbn [drop].
    rewrite drop_drop. f_equal. lia.
Qed.

Lemma Read_name_buffer_witness :
  Read demo_store (fun _ => adbd_memory) demo_pi 1
       (Some (replicate 40 "*"%byte)) caller_buffer
  = Ret (7, Some (bytes "init.svc.adbd" ++ NUL :: replicate 26 "*"%byte),
         bytes "running" ++ NUL :: drop 8 caller_buffer).
Proof.
  apply (proj1 (proj2 (Read_name_buffer demo_store (fun _ => adbd_memory) demo_pi 1
                         (replicate 40 "*"%byte) caller_buffer
                         (prop_info.mk "init.svc.adbd" 117440512
                            (bytes "running" ++ drop 7 blank) None)
                         117440512 (bytes "running" ++ NUL :: drop 8 caller_buffer)
                         eq_refl ltac:(vm_compute; discriminate) eq_refl))).
Defined.
